(** * N-body simulation: the physics core of NBodySimulation/main.cpp

    A shallow embedding of the gravitational engine of the solar-system
    simulation: [Vec3] arithmetic, [computeAccelerations], [velocityVerlet],
    [enforceBarycenter] and the sub-stepping loop of [main].

    The C++ code computes on [double].  The embedding is written once, over
    an interface [Double] of the arithmetic operations the code uses, and is
    read at two instances:
    - [float_double]: Rocq's primitive binary64 floats, the arithmetic the
      program runs on (it evaluates, division by zero and NaN included);
    - [R_double]: the real numbers, "exact arithmetic", in which the
      algebraic properties (Newton's third law, momentum) are stated.

    The rendering members of [Body] ([shape], [trail]) are never read or
    written by the physics functions and are left out of the record. *)

From Stdlib Require Import Reals Lra Lia List ZArith Floats.
From stdpp Require Import base list.

Set Default Proof Using "Type".

(** ** The arithmetic of [double] *)

Class Double (D : Type) := {
  lit_0 : D;                (* the literals 0 and 0.0 *)
  lit_1 : D;                (* 1.0 *)
  lit_4 : D;                (* 4 *)
  lit_0_5 : D;              (* 0.5 *)
  lit_0_0005 : D;           (* 0.0005 *)
  lit_1e_10 : D;            (* 1e-10 *)
  M_PI : D;                 (* <cmath>'s M_PI *)
  dadd : D -> D -> D;
  dsub : D -> D -> D;
  dmul : D -> D -> D;
  ddiv : D -> D -> D;
  dsqrt : D -> D            (* std::sqrt *)
}.

Declare Scope double_scope.
Delimit Scope double_scope with D.
Infix "+" := dadd : double_scope.
Infix "-" := dsub : double_scope.
Infix "*" := dmul : double_scope.
Infix "/" := ddiv : double_scope.

(** IEEE binary64, as the compiled program computes. *)
#[export] Instance float_double : Double float := {|
  lit_0 := 0%float;
  lit_1 := 1%float;
  lit_4 := 4%float;
  lit_0_5 := 0.5%float;
  lit_0_0005 := 0x1.0624dd2f1a9fcp-11%float;      (* nearest to 0.0005 *)
  lit_1e_10 := 0x1.b7cdfd9d7bdbbp-34%float;       (* nearest to 1e-10 *)
  M_PI := 0x1.921fb54442d18p+1%float;            (* 3.14159265358979323846 *)
  dadd := PrimFloat.add;
  dsub := PrimFloat.sub;
  dmul := PrimFloat.mul;
  ddiv := PrimFloat.div;
  dsqrt := PrimFloat.sqrt
|}.

(** Exact arithmetic over the reals. *)
#[export] Instance R_double : Double R := {|
  lit_0 := 0%R;
  lit_1 := 1%R;
  lit_4 := 4%R;
  lit_0_5 := (1 / 2)%R;
  lit_0_0005 := (5 / 10000)%R;
  lit_1e_10 := (1 / 10000000000)%R;
  M_PI := PI;
  dadd := Rplus;
  dsub := Rminus;
  dmul := Rmult;
  ddiv := Rdiv;
  dsqrt := R_sqrt.sqrt
|}.

(** ** The program *)

Section Program.
Context {D : Type} `{Double D}.
Local Open Scope double_scope.

(** Physics constants. *)
Definition G : D := lit_4 * M_PI * M_PI.
Definition dt : D := lit_0_0005.
Definition EPS : D := lit_1e_10.

(** [struct Vec3 { double x, y, z; }] *)
Record Vec3 : Type := mkVec3 { x : D; y : D; z : D }.

(** [operator+(const Vec3&, const Vec3&)] *)
Definition vadd (a b : Vec3) : Vec3 :=
  {| x := x a + x b; y := y a + y b; z := z a + z b |}.

(** [operator-(const Vec3&, const Vec3&)] *)
Definition vsub (a b : Vec3) : Vec3 :=
  {| x := x a - x b; y := y a - y b; z := z a - z b |}.

(** [operator*(const Vec3&, double)] *)
Definition vmul (a : Vec3) (scalar : D) : Vec3 :=
  {| x := x a * scalar; y := y a * scalar; z := z a * scalar |}.

(** [operator*(double, const Vec3&)]: the components stay on the left. *)
Definition smul (scalar : D) (a : Vec3) : Vec3 :=
  {| x := x a * scalar; y := y a * scalar; z := z a * scalar |}.

(** [operator/(const Vec3&, double)] *)
Definition vdiv (a : Vec3) (scalar : D) : Vec3 :=
  {| x := x a / scalar; y := y a / scalar; z := z a / scalar |}.

Definition norm (v : Vec3) : D :=
  dsqrt (x v * x v + y v * y v + z v * z v).

(** The braced initialiser [{ 0,0,0 }]. *)
Definition vzero : Vec3 := {| x := lit_0; y := lit_0; z := lit_0 |}.

(** [struct Body], physics members. *)
Record Body : Type := mkBody {
  mass : D;
  position : Vec3;
  velocity : Vec3;
  acceleration : Vec3
}.

(** Assignments to one member of a body. *)
Definition set_position (p : Vec3) (b : Body) : Body :=
  {| mass := mass b; position := p; velocity := velocity b;
     acceleration := acceleration b |}.
Definition set_velocity (v : Vec3) (b : Body) : Body :=
  {| mass := mass b; position := position b; velocity := v;
     acceleration := acceleration b |}.
Definition set_acceleration (a : Vec3) (b : Body) : Body :=
  {| mass := mass b; position := position b; velocity := velocity b;
     acceleration := a |}.

End Program.

Arguments Vec3 D : clear implicits.
Arguments Body D : clear implicits.

Declare Scope vec_scope.
Delimit Scope vec_scope with V.
Infix "^+" := vadd (at level 50, left associativity) : vec_scope.
Infix "^-" := vsub (at level 50, left associativity) : vec_scope.
Infix "^*" := vmul (at level 40, left associativity) : vec_scope.
Infix "*^" := smul (at level 40, left associativity) : vec_scope.
Infix "^/" := vdiv (at level 40, left associativity) : vec_scope.

Section Physics.
Context {D : Type} `{Double D}.
Local Open Scope double_scope.
Local Open Scope vec_scope.

(** *** computeAccelerations *)

(** The pairwise force term [r * (G * invDist3)] of two positions. *)
Definition force (pi pj : Vec3 D) : Vec3 D :=
  let r := pj ^- pi in
  let dist := norm r + EPS in
  let invDist3 := lit_1 / (dist * dist * dist) in
  r ^* (G * invDist3).

(** Body of the inner loop at indices [i], [j].  The force term is
    computed from [bodies[j].position] and [bodies[i].position]; then
    [bodies[i].acceleration] is assigned, reading [bodies[j].mass]; then
    [bodies[j].acceleration] is assigned, reading [bodies[i].mass] from the
    vector as the first assignment left it.  An index outside the vector
    (which the loops never produce) leaves the vector as it is. *)
Definition pair_step (i j : nat) (bodies : list (Body D)) : list (Body D) :=
  match bodies !! i, bodies !! j with
  | Some bi, Some bj =>
      let f := force (position bi) (position bj) in
      let bodies1 :=
        alter (fun b => set_acceleration (acceleration b ^+ mass bj *^ f) b)
              i bodies in
      match bodies1 !! i with
      | Some bi1 =>
          alter (fun b => set_acceleration (acceleration b ^- mass bi1 *^ f) b)
                j bodies1
      | None => bodies1
      end
  | _, _ => bodies
  end.

(** [for (size_t j = i + 1; j < bodies.size(); ++j)] *)
Definition inner_loop (n i : nat) (bodies : list (Body D)) : list (Body D) :=
  fold_left (fun bs j => pair_step i j bs) (seq (S i) (n - S i)) bodies.

(** [for (size_t i = 0; i < bodies.size(); ++i)]; no statement of the
    loops changes [bodies.size()], which is [n] throughout. *)
Definition outer_loop (n : nat) (bodies : list (Body D)) : list (Body D) :=
  fold_left (fun bs i => inner_loop n i bs) (seq 0 n) bodies.

Definition computeAccelerations (bodies : list (Body D)) : list (Body D) :=
  let bodies0 := map (set_acceleration vzero) bodies in
  outer_loop (length bodies0) bodies0.

(** *** The result of the pair loops, body by body

    The four definitions below are not functions of the program: they
    name what the statements about [computeAccelerations] say of it. *)

(** What the pair [(i, j)] adds to body [i] ... *)
Definition pull (bi : Body D) (a : Vec3 D) (bj : Body D) : Vec3 D :=
  a ^+ mass bj *^ force (position bi) (position bj).

(** ... and what it takes from body [j]. *)
Definition pull_back (bj : Body D) (a : Vec3 D) (bi : Body D) : Vec3 D :=
  a ^- mass bi *^ force (position bi) (position bj).

(** The acceleration of a body once every pair has been visited, starting
    from [a0]: the pairs with an [earlier] body come first (the body is the
    [j] of the pair), then the pairs with a [later] body (it is the [i]). *)
Definition net_acceleration (b : Body D) (a0 : Vec3 D)
    (earlier later : list (Body D)) : Vec3 D :=
  fold_left (pull b) later (fold_left (pull_back b) earlier a0).

(** What a later body is left with once the pairs of [b] are done. *)
Definition give_to (b bj : Body D) : Body D :=
  set_acceleration (pull_back bj (acceleration bj) b) bj.

(** *** velocityVerlet *)

(** Right-hand sides of the two assignments of the integrator. *)
Definition advance_position (b : Body D) : Body D :=
  set_position
    (position b ^+ velocity b ^* dt ^+ acceleration b ^* (lit_0_5 * dt * dt)) b.

Definition finish_velocity (old : Vec3 D) (b : Body D) : Body D :=
  set_velocity (velocity b ^+ (old ^+ acceleration b) ^* (lit_0_5 * dt)) b.

(** First loop: at index [i], save the acceleration in [oldAcc[i]] and
    advance the position. *)
Definition drift_step (st : list (Vec3 D) * list (Body D)) (i : nat)
  : list (Vec3 D) * list (Body D) :=
  let '(oldAcc, bodies) := st in
  match bodies !! i with
  | Some b => (<[i := acceleration b]> oldAcc, <[i := advance_position b]> bodies)
  | None => st
  end.

(** Third loop: at index [i], finish the velocity from [oldAcc[i]] and the
    new acceleration. *)
Definition kick_step (oldAcc : list (Vec3 D)) (bodies : list (Body D))
  (i : nat) : list (Body D) :=
  match oldAcc !! i, bodies !! i with
  | Some old, Some b => <[i := finish_velocity old b]> bodies
  | _, _ => bodies
  end.

(** [static std::vector<Vec3> oldAcc] outlives every call and is shared by
    all of them: it is threaded through as explicit state, the buffer on
    entry as an argument and the buffer on exit as the first result. *)
Definition velocityVerlet (oldAcc : list (Vec3 D)) (bodies : list (Body D))
  : list (Vec3 D) * list (Body D) :=
  let n := length bodies in
  let oldAcc0 := resize n vzero oldAcc in
  let '(oldAcc1, bodies1) :=
    fold_left drift_step (seq 0 n) (oldAcc0, bodies) in
  let bodies2 := computeAccelerations bodies1 in
  (oldAcc1, fold_left (kick_step oldAcc1) (seq 0 n) bodies2).

(** *** enforceBarycenter *)

(** The accumulation loop: [totalMomentum] and [totalMass]. *)
Definition totals (bodies : list (Body D)) : Vec3 D * D :=
  fold_left
    (fun '(totalMomentum, totalMass) b =>
       (totalMomentum ^+ mass b *^ velocity b, totalMass + mass b))
    bodies (vzero, lit_0).

(** The mass-weighted sum of a vector member over the bodies, accumulated
    as the loop of [enforceBarycenter] does (a quantity of the statements:
    the sum of [mass * velocity], of [mass * acceleration]). *)
Definition weighted (member : Body D -> Vec3 D) (bodies : list (Body D)) : Vec3 D :=
  fold_left (fun total b => total ^+ mass b *^ member b) bodies vzero.

Definition totalMomentum (bodies : list (Body D)) : Vec3 D := fst (totals bodies).
Definition totalMass (bodies : list (Body D)) : D := snd (totals bodies).

Definition enforceBarycenter (bodies : list (Body D)) : list (Body D) :=
  let '(totalMomentum, totalMass) := totals bodies in
  let correction := totalMomentum ^/ totalMass in
  map (fun b => set_velocity (velocity b ^- correction) b) bodies.

(** *** The driver loop of [main] *)

(** The state the physics of a run lives in: the static buffer of
    [velocityVerlet] and the vector [bodies] of [main]. *)
Definition Engine : Type := (list (Vec3 D) * list (Body D))%type.

(** The call [velocityVerlet(bodies)]. *)
Definition call_velocityVerlet (st : Engine) : Engine :=
  velocityVerlet (fst st) (snd st).

(** [for (int i = 0; i < 5; ++i) velocityVerlet(bodies);] *)
Definition substeps (st : Engine) : Engine :=
  fold_left (fun st (_ : nat) => call_velocityVerlet st) (seq 0 5) st.

(** What a tick brings from outside: the events [pollEvent] returns.  The
    loop reads no clock. *)
Inductive Event : Type := Closed | OtherEvent.

(** One round of [while (window.isOpen())], on the window flag and the
    engine: drain the events, then sub-step.  (Trails and drawing read the
    positions afterwards and write no physics member.) *)
Definition frame (events : list Event) (st : bool * Engine) : bool * Engine :=
  let isOpen :=
    fold_left (fun o e => match e with Closed => false | OtherEvent => o end)
              events (fst st) in
  (isOpen, substeps (snd st)).

(** The rounds [main] runs on a stream of ticks: the loop ends once the
    window is closed. *)
Fixpoint run (ticks : list (list Event)) (st : bool * Engine) : bool * Engine :=
  match ticks with
  | [] => st
  | events :: ticks' => if fst st then run ticks' (frame events st) else st
  end.

(** Start of [main] after the bodies are built. *)
Definition init (bodies : list (Body D)) : list (Body D) :=
  enforceBarycenter (computeAccelerations bodies).

(** *** Two systems in one process *)

(** Two vectors of bodies stepped by calls of the one [velocityVerlet],
    hence through the one static buffer; [true] steps the first system. *)
Definition step_of (which : bool)
    (st : list (Vec3 D) * list (Body D) * list (Body D))
  : list (Vec3 D) * list (Body D) * list (Body D) :=
  let '(oldAcc, sysA, sysB) := st in
  if which
  then let '(oldAcc', sysA') := velocityVerlet oldAcc sysA in (oldAcc', sysA', sysB)
  else let '(oldAcc', sysB') := velocityVerlet oldAcc sysB in (oldAcc', sysA, sysB').

Definition interleave (schedule : list bool)
    (st : list (Vec3 D) * list (Body D) * list (Body D))
  : list (Vec3 D) * list (Body D) * list (Body D) :=
  fold_left (fun st which => step_of which st) schedule st.

(** How many calls a schedule gives to a system. *)
Definition turns (which : bool) (schedule : list bool) : nat :=
  length (List.filter (Bool.eqb which) schedule).

(** [n] steps of a system that is alone in its process. *)
Definition alone (n : nat) (st : Engine) : Engine :=
  Nat.iter n call_velocityVerlet st.

End Physics.

(** ** The rest of [main.cpp] *)

Section Setup.
Context {D : Type} `{Double D}.
Local Open Scope double_scope.
Local Open Scope vec_scope.

(** [makePlanet], physics members.  [Body b;] leaves [b.acceleration]
    uninitialised: whatever it holds is the argument [garbage]. *)
Definition makePlanet (mass radius : D) (garbage : Vec3 D) : Body D :=
  let v := dsqrt (G / radius) in
  {| mass := mass;
     position := {| x := radius; y := lit_0; z := lit_0 |};
     velocity := {| x := lit_0; y := v; z := lit_0 |};
     acceleration := garbage |}.

End Setup.

Section Trails.
(** The points of a trail are [sf::Vector2f]; [toScreen] computes them in
    single precision from the globals [SCALE] and [CENTER].  The trail
    code only stores them: the point type and [toScreen] are left open. *)
Context {D : Type} `{Double D} {Point : Type}.
Variable toScreen : Vec3 D -> Point.

(** [const size_t MAX_TRAIL = 1500;] *)
Definition MAX_TRAIL : nat := 1500.

(** [b.trail.push_back(p); if (b.trail.size() > MAX_TRAIL) b.trail.pop_front();]
    on the deque [b.trail], oldest point first. *)
Definition push_trail (p : Point) (trail : list Point) : list Point :=
  let trail1 := trail ++ [p] in
  if MAX_TRAIL <? length trail1 then drop 1 trail1 else trail1.

(** The trail loop of a round, [for (auto& b : bodies)]: the member
    [trail] of each body is kept beside the physics members, as the list
    [trails], one trail per body. *)
Definition update_trails (bodies : list (Body D)) (trails : list (list Point))
  : list (list Point) :=
  zip_with (fun b trail => push_trail (toScreen (position b)) trail)
           bodies trails.

(** A round of the main loop with its trails: events, five sub-steps,
    then the trail loop on the positions the sub-steps left. *)
Definition frame_trails (events : list Event)
    (st : bool * Engine * list (list Point)) : bool * Engine * list (list Point) :=
  let st1 := frame events (fst st) in
  (st1, update_trails (snd (snd st1)) (snd st)).

End Trails.

(** ** Quantities of the statements *)

(** The opposite of a vector of reals. *)
Definition vopp (v : Vec3 R) : Vec3 R :=
  {| x := (- x v)%R; y := (- y v)%R; z := (- z v)%R |}.

(** Dot and cross product of vectors of reals. *)
Definition vdot (a b : Vec3 R) : R :=
  (x a * x b + y a * y b + z a * z b)%R.

Definition vcross (a b : Vec3 R) : Vec3 R :=
  {| x := (y a * z b - z a * y b)%R;
     y := (z a * x b - x a * z b)%R;
     z := (x a * y b - y a * x b)%R |}.

(** Two bodies with the same mass at the same place. *)
Definition same_place {D : Type} (b c : Body D) : Prop :=
  mass b = mass c /\ position b = position c.

(** Angular momentum about the origin, and the torque of the
    accelerations, mass-weighted sums over the bodies. *)
Definition angular_momentum (bodies : list (Body R)) : Vec3 R :=
  weighted (fun b => vcross (position b) (velocity b)) bodies.

Definition torque (bodies : list (Body R)) : Vec3 R :=
  weighted (fun b => vcross (position b) (acceleration b)) bodies.

(** The motion run backwards: every velocity turned round. *)
Definition reversed (bodies : list (Body R)) : list (Body R) :=
  map (fun b => set_velocity (vopp (velocity b)) b) bodies.

(** A binary64 value that is an infinity or a NaN. *)
Definition sf_non_finite (s : spec_float) : Prop :=
  match s with
  | S754_nan | S754_infinity _ => True
  | _ => False
  end.

(** ** Sample systems *)

Module Samples.

(** A lone massless body moving at (1, 2, 3). *)
Definition massless : list (Body float) :=
  [ {| mass := 0%float;
       position := {| x := 0; y := 0; z := 0 |}%float;
       velocity := {| x := 1; y := 2; z := 3 |}%float;
       acceleration := {| x := 0; y := 0; z := 0 |}%float |} ].

(** Two systems of one process, of two bodies and of one. *)
Definition sysA : list (Body float) :=
  [ {| mass := 1%float;
       position := {| x := 0; y := 0; z := 0 |}%float;
       velocity := {| x := 0; y := 0; z := 0 |}%float;
       acceleration := {| x := 1; y := 0; z := 0 |}%float |};
    {| mass := 1%float;
       position := {| x := 1; y := 0; z := 0 |}%float;
       velocity := {| x := 0; y := 0; z := 0 |}%float;
       acceleration := {| x := -1; y := 0; z := 0 |}%float |} ].

Definition sysB : list (Body float) :=
  [ {| mass := 2%float;
       position := {| x := 5; y := 0; z := 0 |}%float;
       velocity := {| x := 0; y := 1; z := 0 |}%float;
       acceleration := {| x := 0; y := 0; z := 0 |}%float |} ].

(** Two unit masses, one drifting at (2, 0, 0). *)
Definition drifting : list (Body float) :=
  [ {| mass := 1%float;
       position := {| x := 0; y := 0; z := 0 |}%float;
       velocity := {| x := 2; y := 0; z := 0 |}%float;
       acceleration := {| x := 0; y := 0; z := 0 |}%float |};
    {| mass := 1%float;
       position := {| x := 1; y := 0; z := 0 |}%float;
       velocity := {| x := 0; y := 0; z := 0 |}%float;
       acceleration := {| x := 0; y := 0; z := 0 |}%float |} ].

(** Jupiter and Saturn as [main] builds them: [makePlanet(9.54e-4, 5.20, ...)]
    and [makePlanet(2.86e-4, 9.58, ...)], the literals at their nearest
    binary64 values, accelerations zero. *)
Definition jupiter : Body float :=
  makePlanet 0x1.f42bb6672fba0p-11%float 0x1.4cccccccccccdp+2%float vzero.

Definition saturn : Body float :=
  makePlanet 0x1.2be48a58b3f64p-12%float 0x1.328f5c28f5c29p+3%float vzero.

(** A star at rest and a planet, over the reals. *)
Definition star : Body R :=
  {| mass := 1%R;
     position := {| x := 0; y := 0; z := 0 |}%R;
     velocity := {| x := 0; y := 0; z := 0 |}%R;
     acceleration := {| x := 0; y := 0; z := 0 |}%R |}.

Definition planet : Body R :=
  {| mass := 2%R;
     position := {| x := 1; y := 0; z := 0 |}%R;
     velocity := {| x := 0; y := 1; z := 0 |}%R;
     acceleration := {| x := 0; y := 0; z := 0 |}%R |}.

Definition two_bodies : list (Body R) := [star; planet].

(** A speck of no mass between them. *)
Definition dust : Body R :=
  {| mass := 0%R;
     position := {| x := 0; y := 3; z := 0 |}%R;
     velocity := {| x := 0; y := 0; z := 0 |}%R;
     acceleration := {| x := 0; y := 0; z := 0 |}%R |}.

End Samples.

(** ** Loops over indices *)

Section IndexLoops.
Context {St : Type}.

(** Invariant rule for [for (i = 0; i < n; ++i)]. *)
Lemma seq_loop_invariant (step : St -> nat -> St) (P : nat -> St -> Prop)
    (n : nat) (st : St) :
  P 0 st ->
  (forall k s, k < n -> P k s -> P (S k) (step s k)) ->
  forall k, k <= n -> P k (fold_left step (seq 0 k) st).
Proof.
  intros H0 Hstep k. induction k as [|k IH]; intros Hk; [exact H0|].
  rewrite seq_S, fold_left_app. simpl. apply Hstep; [lia|]. apply IH. lia.
Qed.

End IndexLoops.

(** A prefix of length [k] rewritten by [f], the rest untouched; writing
    element [k] extends the prefix. *)
Lemma prefix_insert {A B : Type} (f : A -> B) (l : list A) (r : list B)
    (k : nat) (a : A) (v : B) :
  l !! k = Some a -> length r = length l -> v = f a ->
  <[k := v]> (map f (take k l) ++ drop k r)
  = map f (take (S k) l) ++ drop (S k) r.
Proof.
  intros Hl Hlen ->.
  assert (Hk : k < length l) by (apply lookup_lt_is_Some; eauto).
  assert (Hr : is_Some (r !! k)) by (apply lookup_lt_is_Some; lia).
  destruct Hr as [c Hr].
  rewrite insert_app_r_alt by (rewrite length_map, length_take; lia).
  rewrite length_map, length_take, Nat.min_l, Nat.sub_diag by lia.
  rewrite (drop_S r c k Hr). simpl.
  rewrite (take_S_r l k a Hl), map_app. simpl.
  rewrite <- app_assoc. reflexivity.
Qed.

Lemma prefix_lookup {B : Type} (l1 r : list B) (k : nat) :
  length l1 = k -> (l1 ++ drop k r) !! k = r !! k.
Proof.
  intros Hlen. rewrite lookup_app_r by lia. rewrite Hlen, Nat.sub_diag.
  rewrite lookup_drop. f_equal. lia.
Qed.

(** ** The pair loops of [computeAccelerations] *)

Section Sweep.
Context {D : Type} `{Double D}.
Local Open Scope double_scope.
Local Open Scope vec_scope.

Lemma pair_step_cons (i j : nat) (b : Body D) (l : list (Body D)) :
  pair_step (S i) (S j) (b :: l) = b :: pair_step i j l.
Proof.
  unfold pair_step. simpl.
  destruct (l !! i) as [bi|]; [|reflexivity].
  destruct (l !! j) as [bj|]; [|reflexivity].
  set (l1 := alter _ i l). change (list_alter ?g i l) with l1.
  destruct (l1 !! i); reflexivity.
Qed.

Lemma fold_left_map_S {X : Type} (f : X -> nat -> X) (l : list nat) (a : X) :
  fold_left f (map S l) a = fold_left (fun s k => f s (S k)) l a.
Proof. revert a. induction l as [|k l IH]; intros a; simpl; [reflexivity|apply IH]. Qed.

Lemma fold_left_cons_frame {X Y : Type} (f g : list X -> Y -> list X) (b : X) (ks : list Y) :
  (forall l k, f (b :: l) k = b :: g l k) ->
  forall l, fold_left f ks (b :: l) = b :: fold_left g ks l.
Proof.
  intros Hfg. induction ks as [|k ks IH]; intros l; simpl; [reflexivity|].
  rewrite Hfg. apply IH.
Qed.

Lemma inner_loop_cons (n i : nat) (b : Body D) (l : list (Body D)) :
  inner_loop (S n) (S i) (b :: l) = b :: inner_loop n i l.
Proof.
  unfold inner_loop.
  replace (S n - S (S i))%nat with (n - S i)%nat by lia.
  rewrite <- seq_shift, fold_left_map_S.
  apply fold_left_cons_frame. intros l' k. apply pair_step_cons.
Qed.

Lemma outer_loop_tail (n : nat) (b : Body D) (l : list (Body D)) :
  fold_left (fun bs i => inner_loop (S n) i bs) (seq 1 n) (b :: l)
  = b :: outer_loop n l.
Proof.
  unfold outer_loop. rewrite <- seq_shift, fold_left_map_S.
  apply fold_left_cons_frame. intros l' k. apply inner_loop_cons.
Qed.

Lemma prefix_alter {X : Type} (f g : X -> X) (l : list X) (k : nat) (a : X) :
  l !! k = Some a -> g a = f a ->
  alter g k (map f (take k l) ++ drop k l)
  = map f (take (S k) l) ++ drop (S k) l.
Proof.
  intros Hl Hg.
  assert (Hk : k < length l) by (apply lookup_lt_is_Some; eauto).
  rewrite alter_app_r_alt by (rewrite length_map, length_take; lia).
  rewrite length_map, length_take, Nat.min_l, Nat.sub_diag by lia.
  rewrite (drop_S l a k Hl). simpl. rewrite Hg.
  rewrite (take_S_r l k a Hl), map_app. simpl.
  rewrite <- app_assoc. reflexivity.
Qed.

(** The round [i = 0] of the outer loop: the head has collected from every
    later body, and every later body has given to the head. *)
Lemma inner_loop_head (b : Body D) (l : list (Body D)) :
  inner_loop (S (length l)) 0 (b :: l)
  = set_acceleration (fold_left (pull b) l (acceleration b)) b
    :: map (give_to b) l.
Proof.
  unfold inner_loop.
  replace (S (length l) - 1)%nat with (length l) by lia.
  rewrite <- seq_shift, fold_left_map_S.
  pose (P := fun (t : nat) (s : list (Body D)) =>
    s = set_acceleration (fold_left (pull b) (take t l) (acceleration b)) b
        :: (map (give_to b) (take t l) ++ drop t l)).
  assert (HP : P (length l)
    (fold_left (fun s k => pair_step 0 (S k) s) (seq 0 (length l)) (b :: l))).
  { apply (seq_loop_invariant _ P (length l)); [| |lia].
    - unfold P. rewrite take_0, drop_0. simpl. destruct b; reflexivity.
    - intros t s Ht ->. unfold P.
      destruct (lookup_lt_is_Some_2 l t Ht) as [bj Hbj].
      unfold pair_step. simpl.
      rewrite prefix_lookup by (rewrite length_map, length_take; lia).
      rewrite Hbj. simpl. f_equal.
      + rewrite (take_S_r l t bj Hbj), fold_left_app. reflexivity.
      + apply prefix_alter with (a := bj); [exact Hbj|reflexivity]. }
  unfold P in HP. rewrite HP, take_ge, drop_ge, app_nil_r by lia. reflexivity.
Qed.

Lemma outer_loop_cons (b : Body D) (l : list (Body D)) :
  outer_loop (S (length l)) (b :: l)
  = set_acceleration (fold_left (pull b) l (acceleration b)) b
    :: outer_loop (length l) (map (give_to b) l).
Proof.
  unfold outer_loop at 1. simpl seq. simpl fold_left.
  rewrite inner_loop_head.
  rewrite outer_loop_tail. reflexivity.
Qed.

Lemma fold_left_map_eq {X Y Z : Type} (f : Z -> Y -> Z) (f' : Z -> X -> Z)
    (g : X -> Y) (l : list X) (a : Z) :
  (forall a x, f a (g x) = f' a x) ->
  fold_left f (map g l) a = fold_left f' l a.
Proof.
  intros Hf. revert a. induction l as [|x l IH]; intros a; simpl; [reflexivity|].
  rewrite Hf. apply IH.
Qed.

(** The pair terms read the mass and the position of a body only. *)
Lemma net_acceleration_map (g : Body D -> Body D) (b : Body D) (a0 : Vec3 D)
    (earlier later : list (Body D)) :
  (forall c, mass (g c) = mass c /\ position (g c) = position c) ->
  net_acceleration (g b) a0 (map g earlier) (map g later)
  = net_acceleration b a0 earlier later.
Proof.
  intros Hg. unfold net_acceleration.
  destruct (Hg b) as [_ Hb].
  rewrite (fold_left_map_eq (pull_back (g b)) (pull_back b) g).
  - apply fold_left_map_eq. intros a c. unfold pull.
    destruct (Hg c) as [-> ->]. rewrite Hb. reflexivity.
  - intros a c. unfold pull_back.
    destruct (Hg c) as [-> ->]. rewrite Hb. reflexivity.
Qed.

(** The two loops, started on any accelerations, in closed form. *)
Lemma outer_loop_closed (n : nat) (l : list (Body D)) :
  length l = n ->
  outer_loop n l
  = imap (fun k b =>
            set_acceleration
              (net_acceleration b (acceleration b) (take k l) (drop (S k) l)) b)
         l.
Proof.
  revert l. induction n as [|n IH]; intros [|b l] Hlen; try discriminate.
  - reflexivity.
  - injection Hlen as Hlen. subst n.
    rewrite outer_loop_cons, imap_cons. f_equal.
    rewrite IH by apply length_map.
    change (map (give_to b) l) with (give_to b <$> l) at 1.
    rewrite imap_fmap. apply imap_ext. intros k c _. unfold compose.
    rewrite firstn_map, skipn_map.
    rewrite net_acceleration_map by (intros; split; reflexivity).
    reflexivity.
Qed.

End Sweep.

(** ** computeAccelerations and velocityVerlet, for every arithmetic *)

Section Generic.
Context {D : Type} `{Double D}.
Local Open Scope double_scope.
Local Open Scope vec_scope.

(** C2.  [computeAccelerations] resets every acceleration to zero and then
    visits every pair [(i, j)], [i < j], once, in the order of the two
    loops.  For the pair, with [r = position_j - position_i] and
    [dist = sqrt (r.x*r.x + r.y*r.y + r.z*r.z) + 1e-10], that is
    [norm r + EPS], the term is [r * (G * (1 / (dist * dist * dist)))], with
    [G = 4 * M_PI * M_PI] (over the reals, [(G / dist^3) * r]); [mass_j]
    times the term is added to the acceleration of body [i] and [mass_i]
    times the term is subtracted from that of body [j].  So body [k] ends
    with: zero, minus the terms of the pairs [(i, k)], [i < k], in
    increasing [i], plus the terms of the pairs [(k, j)], [j > k], in
    increasing [j]; nothing else of a body changes, for any number of
    bodies.  The statement spells the term out in the operations of the
    arithmetic. *)
Theorem computeAccelerations_spec (bodies : list (Body D)) :
  let term := fun bi bj : Body D =>
    let r := position bj ^- position bi in
    let dist := dsqrt (x r * x r + y r * y r + z r * z r) + lit_1e_10 in
    r ^* (lit_4 * M_PI * M_PI * (lit_1 / (dist * dist * dist))) in
  computeAccelerations bodies
  = imap (fun k b =>
            set_acceleration
              (fold_left (fun a bj => a ^+ mass bj *^ term b bj)
                 (drop (S k) bodies)
                 (fold_left (fun a bi => a ^- mass bi *^ term bi b)
                    (take k bodies)
                    {| x := lit_0; y := lit_0; z := lit_0 |}))
              b)
         bodies.
Proof.
  intros term. unfold computeAccelerations.
  rewrite outer_loop_closed by reflexivity.
  change (map (set_acceleration vzero) bodies)
    with (set_acceleration vzero <$> bodies) at 1.
  rewrite imap_fmap. apply imap_ext. intros k b _. unfold compose.
  rewrite firstn_map, skipn_map.
  rewrite net_acceleration_map by (intros; split; reflexivity).
  reflexivity.
Qed.

Lemma computeAccelerations_length (bodies : list (Body D)) :
  length (computeAccelerations bodies) = length bodies.
Proof.
  unfold computeAccelerations. rewrite outer_loop_closed by reflexivity.
  rewrite length_imap. apply length_map.
Qed.

Lemma computeAccelerations_lookup (bodies : list (Body D)) (k : nat) (b : Body D) :
  bodies !! k = Some b ->
  exists a, computeAccelerations bodies !! k = Some (set_acceleration a b).
Proof.
  intros Hb. unfold computeAccelerations.
  rewrite outer_loop_closed by reflexivity.
  change (map ?f bodies) with (f <$> bodies).
  rewrite list_lookup_imap, list_lookup_fmap, Hb. simpl. eauto.
Qed.

(** The first loop of [velocityVerlet]. *)
Lemma drift_loop (oldAcc : list (Vec3 D)) (bodies : list (Body D)) :
  length oldAcc = length bodies ->
  fold_left drift_step (seq 0 (length bodies)) (oldAcc, bodies)
  = (map acceleration bodies, map advance_position bodies).
Proof.
  intros Hlen.
  pose (P := fun (k : nat) (st : list (Vec3 D) * list (Body D)) =>
    st = (map acceleration (take k bodies) ++ drop k oldAcc,
          map advance_position (take k bodies) ++ drop k bodies)).
  assert (HP : P (length bodies)
    (fold_left drift_step (seq 0 (length bodies)) (oldAcc, bodies))).
  { apply (seq_loop_invariant _ P (length bodies)); [| |lia].
    - unfold P. rewrite take_0, !drop_0. reflexivity.
    - intros k st Hk ->. unfold P, drift_step.
      destruct (lookup_lt_is_Some_2 bodies k Hk) as [b Hb].
      rewrite prefix_lookup by (rewrite length_map, length_take; lia).
      rewrite Hb. f_equal.
      + apply prefix_insert with (a := b); [exact Hb|exact Hlen|reflexivity].
      + apply prefix_insert with (a := b); [exact Hb|reflexivity|reflexivity]. }
  unfold P in HP. rewrite HP.
  rewrite take_ge, !drop_ge, !app_nil_r by lia. reflexivity.
Qed.

(** The third loop of [velocityVerlet]. *)
Lemma kick_loop (oldAcc : list (Vec3 D)) (bodies : list (Body D)) :
  length oldAcc = length bodies ->
  fold_left (kick_step oldAcc) (seq 0 (length bodies)) bodies
  = zip_with finish_velocity oldAcc bodies.
Proof.
  intros Hlen.
  pose (P := fun (k : nat) (bs : list (Body D)) =>
    bs = map (uncurry finish_velocity) (take k (zip oldAcc bodies)) ++ drop k bodies).
  assert (Hz : length (zip oldAcc bodies) = length bodies).
  { rewrite length_zip_with. lia. }
  assert (HP : P (length bodies)
    (fold_left (kick_step oldAcc) (seq 0 (length bodies)) bodies)).
  { apply (seq_loop_invariant _ P (length bodies)); [| |lia].
    - unfold P. rewrite take_0, drop_0. reflexivity.
    - intros k bs Hk ->. unfold P, kick_step.
      destruct (lookup_lt_is_Some_2 bodies k Hk) as [b Hb].
      destruct (lookup_lt_is_Some_2 oldAcc k ltac:(lia)) as [old Hold].
      rewrite prefix_lookup by (rewrite length_map, length_take; lia).
      rewrite Hold, Hb.
      apply prefix_insert with (a := (old, b)); [|lia|reflexivity].
      apply lookup_zip_Some. split; assumption. }
  unfold P in HP. rewrite HP.
  rewrite take_ge, drop_ge, app_nil_r by lia.
  symmetry. apply zip_with_zip.
Qed.

Lemma velocityVerlet_raw (oldAcc : list (Vec3 D)) (bodies : list (Body D)) :
  velocityVerlet oldAcc bodies
  = (map acceleration bodies,
     zip_with finish_velocity (map acceleration bodies)
       (computeAccelerations (map advance_position bodies))).
Proof.
  unfold velocityVerlet.
  rewrite drift_loop by apply length_resize.
  assert (Hl : length (computeAccelerations (map advance_position bodies))
               = length bodies).
  { rewrite computeAccelerations_length. apply length_map. }
  rewrite <- Hl at 1. rewrite kick_loop; [reflexivity|].
  rewrite length_map. symmetry. exact Hl.
Qed.

(** C1.  One call of [velocityVerlet] is one step of size [dt] in three
    stages: every body's position becomes
    [position + velocity*dt + acceleration*(0.5*dt*dt)]; the accelerations
    are recomputed by [computeAccelerations] on the moved bodies; every
    body's velocity becomes
    [velocity + (old_acceleration + new_acceleration)*(0.5*dt)], with the
    acceleration the body had on entry as the old one.  The buffer is left
    holding the accelerations on entry. *)
Theorem velocityVerlet_step (oldAcc : list (Vec3 D)) (bodies : list (Body D)) :
  let moved :=
    map (fun b => set_position
                    (position b ^+ velocity b ^* dt
                     ^+ acceleration b ^* (lit_0_5 * dt * dt)) b) bodies in
  let renewed := computeAccelerations moved in
  snd (velocityVerlet oldAcc bodies)
  = zip_with (fun b b' =>
                set_velocity
                  (velocity b ^+ (acceleration b ^+ acceleration b') ^* (lit_0_5 * dt))
                  b')
             bodies renewed
  /\ fst (velocityVerlet oldAcc bodies) = map acceleration bodies
  /\ length (snd (velocityVerlet oldAcc bodies)) = length bodies.
Proof.
  intros moved renewed. rewrite velocityVerlet_raw. simpl.
  assert (Hlen : length renewed = length bodies).
  { unfold renewed, moved. rewrite computeAccelerations_length. apply length_map. }
  change (computeAccelerations (map advance_position bodies)) with renewed.
  split; [|split; [reflexivity|]].
  - apply list_eq. intros k. rewrite !lookup_zip_with.
    change (map acceleration bodies) with (acceleration <$> bodies).
    rewrite list_lookup_fmap.
    destruct (bodies !! k) as [b|] eqn:Hb; [|reflexivity]. simpl.
    assert (Hm : moved !! k = Some (advance_position b)).
    { unfold moved. change (map ?f bodies) with (f <$> bodies).
      rewrite list_lookup_fmap, Hb. reflexivity. }
    destruct (computeAccelerations_lookup moved k _ Hm) as [a Ha].
    fold renewed in Ha. rewrite Ha. reflexivity.
  - rewrite length_zip_with, length_map. lia.
Qed.

(** The bodies a call returns do not depend on the buffer it finds. *)
Lemma velocityVerlet_buffer_irrelevant (buf1 buf2 : list (Vec3 D))
    (bodies : list (Body D)) :
  snd (velocityVerlet buf1 bodies) = snd (velocityVerlet buf2 bodies).
Proof. rewrite !velocityVerlet_raw. reflexivity. Qed.

Lemma alone_succ (n : nat) (buf : list (Vec3 D)) (bodies : list (Body D)) :
  alone (S n) (buf, bodies) = alone n (velocityVerlet buf bodies).
Proof. unfold alone. rewrite Nat.iter_succ_r. reflexivity. Qed.

Lemma interleave_cons (w : bool) (schedule : list bool)
    (oldAcc : list (Vec3 D)) (sysA sysB : list (Body D)) :
  interleave (w :: schedule) (oldAcc, sysA, sysB)
  = if w
    then interleave schedule
           (fst (velocityVerlet oldAcc sysA), snd (velocityVerlet oldAcc sysA), sysB)
    else interleave schedule
           (fst (velocityVerlet oldAcc sysB), sysA, snd (velocityVerlet oldAcc sysB)).
Proof.
  unfold interleave. simpl fold_left.
  destruct w; [destruct (velocityVerlet oldAcc sysA)
              |destruct (velocityVerlet oldAcc sysB)]; reflexivity.
Qed.

(** C9 (as the code has it).  The old-acceleration buffer is one object
    per process, kept from call to call and handed from one system's call to
    the next system's: whatever it held, a call leaves in it the
    accelerations its own bodies had on entry.  Every call resizes it to
    the body count and writes each entry before reading it, so the bodies
    a call returns depend on the bodies passed in only, and two systems (of
    any sizes) stepped in any interleaving through the shared buffer each end
    where they end when stepped alone, from any buffer. *)
Theorem interleave_alone (schedule : list bool)
    (oldAcc bufA bufB : list (Vec3 D)) (sysA sysB : list (Body D)) :
  snd (fst (interleave schedule (oldAcc, sysA, sysB)))
  = snd (alone (turns true schedule) (bufA, sysA))
  /\ snd (interleave schedule (oldAcc, sysA, sysB))
     = snd (alone (turns false schedule) (bufB, sysB))
  /\ (forall buf1 buf2 bodies,
        snd (velocityVerlet buf1 bodies) = snd (velocityVerlet buf2 bodies)
        /\ fst (velocityVerlet buf1 bodies) = map acceleration bodies).
Proof.
  split; [|split].
  - revert oldAcc bufA sysA sysB.
    induction schedule as [|w s IH]; intros oldAcc bufA sysA sysB; [reflexivity|].
    rewrite interleave_cons. destruct w.
    + change (turns true (true :: s)) with (S (turns true s)).
      rewrite alone_succ, !velocityVerlet_raw. apply IH.
    + change (turns true (false :: s)) with (turns true s).
      rewrite velocityVerlet_raw. apply IH.
  - revert oldAcc bufB sysA sysB.
    induction schedule as [|w s IH]; intros oldAcc bufB sysA sysB; [reflexivity|].
    rewrite interleave_cons. destruct w.
    + change (turns false (true :: s)) with (turns false s).
      rewrite velocityVerlet_raw. apply IH.
    + change (turns false (false :: s)) with (S (turns false s)).
      rewrite alone_succ, !velocityVerlet_raw. apply IH.
  - intros buf1 buf2 bodies. rewrite !velocityVerlet_raw. split; reflexivity.
Qed.

(** C8.  A round of the main loop makes five calls of [velocityVerlet],
    whatever events the tick brought (the loop measures no time); a run
    over any ticks has made five calls for each round it went through. *)
Theorem frame_five_substeps (events : list Event) (st : bool * Engine) :
  snd (frame events st)
  = call_velocityVerlet (call_velocityVerlet (call_velocityVerlet
      (call_velocityVerlet (call_velocityVerlet (snd st)))))
  /\ forall ticks, exists rounds,
       rounds <= length ticks
       /\ snd (run ticks st) = alone (5 * rounds) (snd st).
Proof.
  split; [reflexivity|].
  intros ticks. revert st. induction ticks as [|evs ticks IH]; intros st.
  - exists 0. split; [lia|reflexivity].
  - simpl run. destruct (fst st) eqn:Hopen.
    + destruct (IH (frame evs st)) as (r & Hr & Heq).
      exists (S r). split; [simpl; lia|].
      rewrite Heq. unfold alone.
      replace (5 * S r)%nat with (5 * r + 5)%nat by lia.
      rewrite Nat.iter_add. reflexivity.
    + exists 0. split; [lia|reflexivity].
Qed.

(** C10.  [enforceBarycenter] writes velocities only: the masses, the
    positions and the accelerations, in order, and so the number of
    bodies, are the ones it was given. *)
Theorem enforceBarycenter_frame (bodies : list (Body D)) :
  map mass (enforceBarycenter bodies) = map mass bodies
  /\ map position (enforceBarycenter bodies) = map position bodies
  /\ map acceleration (enforceBarycenter bodies) = map acceleration bodies
  /\ length (enforceBarycenter bodies) = length bodies.
Proof.
  unfold enforceBarycenter. destruct (totals bodies) as [p m].
  rewrite !map_map, length_map. simpl. repeat split; reflexivity.
Qed.

(** The two accumulators of [enforceBarycenter], one at a time. *)
Lemma totals_split (bodies : list (Body D)) (p : Vec3 D) (m : D) :
  fold_left
    (fun '(totalMomentum, totalMass) b =>
       (totalMomentum ^+ mass b *^ velocity b, totalMass + mass b))
    bodies (p, m)
  = (fold_left (fun total b => total ^+ mass b *^ velocity b) bodies p,
     fold_left (fun total b => total + mass b) bodies m).
Proof.
  revert p m. induction bodies as [|b l IH]; intros p m; simpl; [reflexivity|].
  apply IH.
Qed.

Lemma totalMomentum_weighted (bodies : list (Body D)) :
  totalMomentum bodies = weighted velocity bodies.
Proof. unfold totalMomentum, totals. rewrite totals_split. reflexivity. Qed.

Lemma totalMass_fold (bodies : list (Body D)) :
  totalMass bodies = fold_left (fun total b => total + mass b) bodies lit_0.
Proof. unfold totalMass, totals. rewrite totals_split. reflexivity. Qed.

Lemma enforceBarycenter_unfold (bodies : list (Body D)) :
  enforceBarycenter bodies
  = map (fun b =>
           set_velocity
             (velocity b ^- totalMomentum bodies ^/ totalMass bodies) b)
        bodies.
Proof.
  unfold enforceBarycenter, totalMomentum, totalMass.
  destruct (totals bodies) as [p m]. reflexivity.
Qed.

Lemma computeAccelerations_members (bodies : list (Body D)) :
  map mass (computeAccelerations bodies) = map mass bodies
  /\ map position (computeAccelerations bodies) = map position bodies
  /\ map velocity (computeAccelerations bodies) = map velocity bodies.
Proof.
  repeat split; apply list_eq; intros k;
    change (map ?f ?l) with (f <$> l); rewrite !list_lookup_fmap;
    (destruct (bodies !! k) as [b|] eqn:Hb;
     [destruct (computeAccelerations_lookup bodies k b Hb) as [a ->]; reflexivity
     |rewrite (proj2 (lookup_ge_None (computeAccelerations bodies) k));
      [reflexivity
      |rewrite computeAccelerations_length; apply lookup_ge_None; exact Hb]]).
Qed.

Lemma totalMass_masses (bodies : list (Body D)) :
  totalMass bodies = fold_left dadd (map mass bodies) lit_0.
Proof.
  rewrite totalMass_fold. symmetry. apply fold_left_map_eq. reflexivity.
Qed.

Lemma weighted_map (member : Body D -> Vec3 D) (g : Body D -> Body D)
    (bodies : list (Body D)) :
  (forall b, mass (g b) = mass b /\ member (g b) = member b) ->
  weighted member (map g bodies) = weighted member bodies.
Proof.
  intros Hg. unfold weighted. apply fold_left_map_eq. intros a b.
  destruct (Hg b) as [-> ->]. reflexivity.
Qed.

End Generic.

(** ** Exact arithmetic *)

Section Exact.
Local Open Scope R_scope.
Local Open Scope vec_scope.

Lemma vec3_eq (a b : Vec3 R) :
  x a = x b -> y a = y b -> z a = z b -> a = b.
Proof. destruct a, b. simpl. intros -> -> ->. reflexivity. Qed.

Ltac vec_simpl :=
  cbn [x y z vadd vsub vmul smul vdiv vzero vopp
       dadd dsub dmul ddiv lit_0 R_double
       mass position velocity acceleration
       set_position set_velocity set_acceleration] in *.

Ltac vec_ring := apply vec3_eq; vec_simpl; ring.

(** Over the reals the force term is [(G / dist^3) * r]. *)
Lemma force_exact (pi pj : Vec3 R) :
  force pi pj
  = (G / ((norm (pj ^- pi) + EPS) * (norm (pj ^- pi) + EPS)
          * (norm (pj ^- pi) + EPS)))%D *^ (pj ^- pi).
Proof.
  unfold force. cbv zeta.
  generalize (norm (pj ^- pi) + EPS)%D. intros d.
  generalize (G : R). intros g.
  apply vec3_eq; vec_simpl; cbn [lit_1 R_double]; unfold Rdiv; ring.
Qed.

Lemma weighted_acc (member : Body R -> Vec3 R) (l : list (Body R)) (a : Vec3 R) :
  fold_left (fun total b => total ^+ mass b *^ member b) l a
  = a ^+ weighted member l.
Proof.
  unfold weighted. revert a. induction l as [|b l IH]; intros a; simpl.
  - vec_ring.
  - rewrite IH. rewrite (IH (vzero ^+ _)). vec_ring.
Qed.

Lemma weighted_cons (member : Body R -> Vec3 R) (b : Body R) (l : list (Body R)) :
  weighted member (b :: l) = mass b *^ member b ^+ weighted member l.
Proof.
  unfold weighted at 1. simpl. rewrite weighted_acc. vec_ring.
Qed.

Lemma totalMass_acc (l : list (Body R)) (m : R) :
  fold_left (fun total b => dadd total (mass b)) l m = m + totalMass l.
Proof.
  rewrite totalMass_fold. revert m. induction l as [|b l IH]; intros m; simpl.
  - ring.
  - rewrite IH. rewrite (IH (0 + _)). ring.
Qed.

Lemma totalMass_cons (b : Body R) (l : list (Body R)) :
  totalMass (b :: l) = mass b + totalMass l.
Proof.
  rewrite totalMass_fold. simpl. rewrite totalMass_acc. ring.
Qed.

Lemma totalMomentum_cons (b : Body R) (l : list (Body R)) :
  totalMomentum (b :: l) = mass b *^ velocity b ^+ totalMomentum l.
Proof. rewrite !totalMomentum_weighted. apply weighted_cons. Qed.

(** Shifting every velocity by [c] shifts the momentum by [totalMass * c]. *)
Lemma totalMomentum_shift (c : Vec3 R) (l : list (Body R)) :
  totalMomentum (map (fun b => set_velocity (velocity b ^- c) b) l)
  = totalMomentum l ^- totalMass l *^ c.
Proof.
  induction l as [|b l IH].
  - unfold totalMomentum, totalMass, totals. simpl. vec_ring.
  - simpl map. rewrite !totalMomentum_cons, totalMass_cons, IH. vec_ring.
Qed.

Lemma totalMass_shift (c : Vec3 R) (l : list (Body R)) :
  totalMass (map (fun b => set_velocity (velocity b ^- c) b) l) = totalMass l.
Proof.
  induction l as [|b l IH]; [reflexivity|].
  simpl map. rewrite !totalMass_cons, IH. reflexivity.
Qed.

Lemma enforceBarycenter_totals (bodies : list (Body R)) :
  0 < totalMass bodies ->
  totalMomentum (enforceBarycenter bodies) = vzero
  /\ totalMass (enforceBarycenter bodies) = totalMass bodies.
Proof.
  intros Hm. rewrite enforceBarycenter_unfold. split.
  - rewrite totalMomentum_shift. apply vec3_eq; vec_simpl; field; lra.
  - apply totalMass_shift.
Qed.

(** C6.  On a system of positive total mass, [enforceBarycenter] subtracts
    [totalMomentum / totalMass], the quotient of the sums of
    [mass * velocity] and of [mass], from every velocity, and the net
    momentum of what it returns is zero. *)
Theorem enforceBarycenter_zero_momentum (bodies : list (Body R)) :
  0 < totalMass bodies ->
  enforceBarycenter bodies
  = map (fun b =>
           set_velocity
             (velocity b ^- totalMomentum bodies ^/ totalMass bodies) b)
        bodies
  /\ totalMomentum bodies = weighted velocity bodies
  /\ totalMass bodies = fold_right (fun b total => mass b + total) 0 bodies
  /\ totalMomentum (enforceBarycenter bodies) = vzero.
Proof.
  intros Hm. rewrite enforceBarycenter_unfold.
  split; [reflexivity|]. split; [apply totalMomentum_weighted|]. split.
  - clear Hm. induction bodies as [|b l IH]; [reflexivity|].
    rewrite totalMass_cons, IH. reflexivity.
  - rewrite totalMomentum_shift. apply vec3_eq; vec_simpl; field; lra.
Qed.

(** C7.  On a system of positive total mass a second [enforceBarycenter]
    changes nothing: the correction it computes is zero. *)
Theorem enforceBarycenter_idempotent (bodies : list (Body R)) :
  0 < totalMass bodies ->
  enforceBarycenter (enforceBarycenter bodies) = enforceBarycenter bodies
  /\ totalMomentum (enforceBarycenter bodies)
       ^/ totalMass (enforceBarycenter bodies) = vzero.
Proof.
  intros Hm.
  destruct (enforceBarycenter_totals bodies Hm) as [Hp Hmass].
  assert (Hc : totalMomentum (enforceBarycenter bodies)
               ^/ totalMass (enforceBarycenter bodies) = vzero).
  { rewrite Hp. apply vec3_eq; vec_simpl; unfold Rdiv; ring. }
  split; [|exact Hc].
  rewrite (enforceBarycenter_unfold (enforceBarycenter bodies)), Hc.
  rewrite <- (map_id (enforceBarycenter bodies)) at 2.
  apply map_ext. intros [m p v a]. unfold set_velocity. simpl. f_equal.
  vec_ring.
Qed.

(** C4 (as the code has it).  In exact arithmetic, what one pair [(i, j)]
    does, before any other pair is added: with the term
    [f = r * (G * (1 / dist^3))], [r = position_j - position_i],
    [dist = sqrt (r.x^2 + r.y^2 + r.z^2) + 1e-10], [G = 4 * PI * PI], body
    [i] gets [mass_j * f] added to its acceleration and body [j] gets
    [mass_i * f] subtracted from its own, every other body is left alone,
    and [mass_i] times what was added to body [i] is the opposite of
    [mass_j] times what was added to body [j].  (In binary64 the two
    products are rounded apart.) *)
Theorem pair_step_third_law (bodies : list (Body R)) (i j : nat)
    (bi bj : Body R) :
  (i < j)%nat ->
  bodies !! i = Some bi ->
  bodies !! j = Some bj ->
  let r := position bj ^- position bi in
  let dist := R_sqrt.sqrt (x r * x r + y r * y r + z r * z r)
              + 1 / 10000000000 in
  let f := r ^* (4 * PI * PI * (1 / (dist * dist * dist))) in
  let ai := acceleration bi ^+ mass bj *^ f in
  let aj := acceleration bj ^- mass bi *^ f in
  pair_step i j bodies !! i = Some (set_acceleration ai bi)
  /\ pair_step i j bodies !! j = Some (set_acceleration aj bj)
  /\ (forall k, k <> i -> k <> j -> pair_step i j bodies !! k = bodies !! k)
  /\ mass bi *^ (ai ^- acceleration bi)
     = vopp (mass bj *^ (aj ^- acceleration bj)).
Proof.
  intros Hij Hi Hj r dist f ai aj.
  assert (Hf : force (position bi) (position bj) = f) by reflexivity.
  unfold pair_step. rewrite Hi, Hj. cbv zeta.
  rewrite (list_lookup_alter _ bodies i i), decide_True by reflexivity.
  rewrite Hi. cbn [fmap option_fmap option_map mass set_acceleration].
  rewrite Hf. repeat split.
  - rewrite list_lookup_alter_ne by lia.
    rewrite list_lookup_alter, decide_True by reflexivity. rewrite Hi. reflexivity.
  - rewrite list_lookup_alter, decide_True by reflexivity.
    rewrite list_lookup_alter_ne by lia. rewrite Hj. reflexivity.
  - intros k Hki Hkj. rewrite !list_lookup_alter_ne by congruence. reflexivity.
  - unfold ai, aj. clearbody f. vec_ring.
Qed.

(** A round of the outer loop moves mass-weighted acceleration between
    the head and the later bodies, and keeps the sum. *)
Lemma round_balance (b : Body R) (l : list (Body R)) (a : Vec3 R) :
  mass b *^ fold_left (pull b) l a ^+ weighted acceleration (map (give_to b) l)
  = mass b *^ a ^+ weighted acceleration l.
Proof.
  revert a. induction l as [|c l IH]; intros a.
  - reflexivity.
  - simpl fold_left. simpl map. rewrite !weighted_cons.
    transitivity
      (mass b *^ fold_left (pull b) l (pull b a c)
       ^+ weighted acceleration (map (give_to b) l)
       ^+ mass (give_to b c) *^ acceleration (give_to b c)).
    { vec_ring. }
    rewrite IH. unfold pull, give_to, pull_back.
    generalize (force (position b) (position c)). intros f.
    generalize (weighted acceleration l). intros w.
    vec_ring.
Qed.

Lemma outer_loop_balance (n : nat) (l : list (Body R)) :
  length l = n ->
  weighted acceleration (outer_loop n l) = weighted acceleration l.
Proof.
  revert l. induction n as [|n IH]; intros [|b l] Hlen; try discriminate.
  - reflexivity.
  - injection Hlen as Hlen. subst n.
    rewrite outer_loop_cons, !weighted_cons.
    rewrite IH by apply length_map.
    cbn [mass acceleration set_acceleration].
    apply round_balance.
Qed.

(** The mass-weighted accelerations [computeAccelerations] leaves sum to
    zero. *)
Lemma computeAccelerations_balanced (bodies : list (Body R)) :
  weighted acceleration (computeAccelerations bodies) = vzero.
Proof.
  unfold computeAccelerations. rewrite outer_loop_balance by reflexivity.
  induction bodies as [|b l IH]; [reflexivity|].
  simpl map. rewrite weighted_cons, IH. vec_ring.
Qed.

(** The third loop of [velocityVerlet] on the momentum. *)
Lemma kick_momentum (l l' : list (Body R)) :
  Forall2 (fun b b' => mass b' = mass b /\ velocity b' = velocity b) l l' ->
  totalMomentum (zip_with finish_velocity (map acceleration l) l')
  = totalMomentum l
    ^+ (weighted acceleration l ^+ weighted acceleration l') ^* (lit_0_5 * dt)%D
  /\ weighted acceleration (zip_with finish_velocity (map acceleration l) l')
     = weighted acceleration l'.
Proof.
  induction 1 as [|b b' l l' [Hm Hv] _ [IHp IHa]].
  - split; [|reflexivity]. unfold totalMomentum, totals, weighted. simpl. vec_ring.
  - simpl map. simpl zip_with.
    rewrite !totalMomentum_cons, !weighted_cons, IHp, IHa.
    unfold finish_velocity. cbn [mass velocity acceleration set_velocity].
    rewrite Hm, Hv. split; [|reflexivity].
    generalize (lit_0_5 * dt)%D. intros c. vec_ring.
Qed.

Lemma renewed_same_mass_velocity (bodies : list (Body R)) :
  Forall2 (fun b b' => mass b' = mass b /\ velocity b' = velocity b)
    bodies (computeAccelerations (map advance_position bodies)).
Proof.
  apply Forall2_same_length_lookup_2.
  - rewrite computeAccelerations_length, length_map. reflexivity.
  - intros k b b' Hb Hb'.
    assert (Hm : map advance_position bodies !! k = Some (advance_position b)).
    { change (map ?f bodies) with (f <$> bodies).
      rewrite list_lookup_fmap, Hb. reflexivity. }
    destruct (computeAccelerations_lookup _ k _ Hm) as [a Ha].
    rewrite Ha in Hb'. injection Hb' as <-. split; reflexivity.
Qed.

(** A step from accelerations whose mass-weighted sum is zero keeps the
    momentum, and leaves such accelerations. *)
Lemma velocityVerlet_momentum (buf : list (Vec3 R)) (bodies : list (Body R)) :
  weighted acceleration bodies = vzero ->
  totalMomentum (snd (velocityVerlet buf bodies)) = totalMomentum bodies
  /\ weighted acceleration (snd (velocityVerlet buf bodies)) = vzero.
Proof.
  intros Hbal. rewrite velocityVerlet_raw. simpl snd.
  destruct (kick_momentum _ _ (renewed_same_mass_velocity bodies)) as [Hp Ha].
  rewrite Hp, Ha, Hbal, computeAccelerations_balanced.
  split; [|reflexivity].
  generalize (lit_0_5 * dt)%D. intros c. vec_ring.
Qed.

Lemma alone_momentum (n : nat) (buf : list (Vec3 R)) (bodies : list (Body R)) :
  weighted acceleration bodies = vzero ->
  totalMomentum (snd (alone n (buf, bodies))) = totalMomentum bodies
  /\ weighted acceleration (snd (alone n (buf, bodies))) = vzero.
Proof.
  intros Hbal. induction n as [|n [IHp IHa]]; [split; [reflexivity|exact Hbal]|].
  unfold alone in *. simpl Nat.iter. unfold call_velocityVerlet at 1.
  destruct (velocityVerlet_momentum
              (fst (Nat.iter n call_velocityVerlet (buf, bodies)))
              _ IHa) as [Hp Ha].
  rewrite Hp, IHp. split; [reflexivity|exact Ha].
Qed.

(** C5.  Integration conserves the total momentum.  The mass-weighted
    accelerations [computeAccelerations] produces sum to zero; a
    [velocityVerlet] step entered with such accelerations (as every step of
    a run is) leaves the sum of [mass * velocity] unchanged; so a system of
    positive total mass set up as [main] does, accelerations computed and
    barycenter enforced, has zero momentum after any number of steps. *)
Theorem momentum_conserved (bodies : list (Body R)) (n : nat)
    (buf : list (Vec3 R)) :
  0 < totalMass bodies ->
  totalMomentum (snd (alone n (buf, init bodies))) = vzero
  /\ (forall sys buf',
        weighted acceleration sys = vzero ->
        totalMomentum (snd (velocityVerlet buf' sys)) = totalMomentum sys
        /\ weighted acceleration (snd (velocityVerlet buf' sys)) = vzero)
  /\ (forall sys, weighted acceleration (computeAccelerations sys) = vzero).
Proof.
  intros Hm. split; [|split].
  - assert (Hbal : weighted acceleration (init bodies) = vzero).
    { unfold init. rewrite enforceBarycenter_unfold.
      rewrite weighted_map by (intros; split; reflexivity).
      apply computeAccelerations_balanced. }
    destruct (alone_momentum n buf _ Hbal) as [-> _].
    apply enforceBarycenter_totals.
    rewrite totalMass_masses.
    rewrite (proj1 (computeAccelerations_members bodies)).
    rewrite <- totalMass_masses. exact Hm.
  - intros sys buf'. apply velocityVerlet_momentum.
  - apply computeAccelerations_balanced.
Qed.

End Exact.

(** ** Worked instances over the reals *)

Section ExactInstances.
Local Open Scope R_scope.
Local Open Scope vec_scope.

Lemma two_bodies_mass : 0 < totalMass Samples.two_bodies.
Proof. unfold totalMass, totals. simpl. lra. Defined.

Lemma pair_step_third_law_witness :
  exists ai aj : Vec3 R,
    pair_step 0 1 Samples.two_bodies !! 0%nat
    = Some (set_acceleration ai Samples.star)
    /\ pair_step 0 1 Samples.two_bodies !! 1%nat
       = Some (set_acceleration aj Samples.planet)
    /\ (forall k, k <> 0%nat -> k <> 1%nat ->
          pair_step 0 1 Samples.two_bodies !! k = Samples.two_bodies !! k)
    /\ mass Samples.star *^ (ai ^- acceleration Samples.star)
       = vopp (mass Samples.planet *^ (aj ^- acceleration Samples.planet)).
Proof.
  eexists _, _.
  apply (pair_step_third_law Samples.two_bodies 0 1 Samples.star Samples.planet);
    [lia | reflexivity | reflexivity].
Defined.

Lemma momentum_conserved_witness :
  0 < totalMass Samples.two_bodies
  /\ totalMomentum (snd (alone 3 ([], init Samples.two_bodies))) = vzero.
Proof.
  split; [exact two_bodies_mass|].
  apply (momentum_conserved Samples.two_bodies 3 [] two_bodies_mass).
Defined.

Lemma enforceBarycenter_zero_momentum_witness :
  0 < totalMass Samples.two_bodies
  /\ totalMomentum (enforceBarycenter Samples.two_bodies) = vzero.
Proof.
  split; [exact two_bodies_mass|].
  apply (enforceBarycenter_zero_momentum Samples.two_bodies two_bodies_mass).
Defined.

Lemma enforceBarycenter_idempotent_witness :
  0 < totalMass Samples.two_bodies
  /\ enforceBarycenter (enforceBarycenter Samples.two_bodies)
     = enforceBarycenter Samples.two_bodies.
Proof.
  split; [exact two_bodies_mass|].
  apply (enforceBarycenter_idempotent Samples.two_bodies two_bodies_mass).
Defined.

End ExactInstances.

(** ** IEEE arithmetic: a zero total mass *)

Section IEEE.
Local Open Scope float_scope.
Local Open Scope vec_scope.

Lemma is_finite_false (f : float) :
  sf_non_finite (Prim2SF f) -> is_finite f = false.
Proof.
  unfold is_finite, is_nan, is_infinity.
  rewrite !FloatAxioms.eqb_spec, FloatAxioms.abs_spec.
  destruct (Prim2SF f) as [s|s| |s m e]; simpl; try contradiction; intros _.
  - destruct s; reflexivity.
  - reflexivity.
Qed.

Lemma is_zero_true (f : float) :
  is_zero f = true -> exists s, Prim2SF f = S754_zero s.
Proof.
  unfold is_zero. rewrite FloatAxioms.eqb_spec.
  destruct (Prim2SF f) as [s|s| |s m e]; simpl; try discriminate.
  - eauto.
  - destruct s; discriminate.
  - destruct s; discriminate.
Qed.

(** Anything divided by a zero is an infinity or a NaN ... *)
Lemma div_zero_non_finite (p m : float) :
  is_zero m = true -> sf_non_finite (Prim2SF (p / m)).
Proof.
  intros Hm. destruct (is_zero_true m Hm) as [s Hs].
  rewrite FloatAxioms.div_spec, Hs. destruct (Prim2SF p); exact I.
Qed.

(** ... and stays one when it is subtracted from anything. *)
Lemma sub_non_finite (v c : float) :
  sf_non_finite (Prim2SF c) -> sf_non_finite (Prim2SF (v - c)).
Proof.
  rewrite FloatAxioms.sub_spec.
  destruct (Prim2SF c) as [s|s| |s m e]; simpl; try contradiction; intros _.
  - destruct (Prim2SF v) as [s'|s'| |s' m' e']; simpl; try exact I.
    destruct s, s'; exact I.
  - destruct (Prim2SF v); exact I.
Qed.

(** The program runs: the barycenter of two unit masses. *)
Example enforceBarycenter_drifting :
  map velocity (enforceBarycenter Samples.drifting)
  = [ {| x := 1; y := 0; z := 0 |}; {| x := -1; y := 0; z := 0 |} ]
  /\ totalMomentum (enforceBarycenter Samples.drifting)
     = {| x := 0; y := 0; z := 0 |}.
Proof. split; reflexivity. Qed.

(** C3 (as the code has it).  [enforceBarycenter] has no guard and no
    error to raise.  On a system whose total mass compares equal to zero it
    divides by that zero and returns, as on any system, the same bodies
    with [totalMomentum / totalMass] subtracted from every velocity: every
    velocity component comes out an infinity or a NaN (and a system of no
    bodies comes out as it went in). *)
Theorem enforceBarycenter_zero_mass (bodies : list (Body float)) :
  is_zero (totalMass bodies) = true ->
  enforceBarycenter bodies
  = map (fun b =>
           set_velocity
             (velocity b ^- totalMomentum bodies ^/ totalMass bodies) b)
        bodies
  /\ length (enforceBarycenter bodies) = length bodies
  /\ Forall (fun b => is_finite (x (velocity b)) = false
                      /\ is_finite (y (velocity b)) = false
                      /\ is_finite (z (velocity b)) = false)
            (enforceBarycenter bodies).
Proof.
  intros Hm. rewrite enforceBarycenter_unfold.
  split; [reflexivity|]. split; [apply length_map|].
  apply List.Forall_forall. intros b' Hin. apply in_map_iff in Hin.
  destruct Hin as (b & <- & _). simpl.
  repeat split; apply is_finite_false, sub_non_finite, div_zero_non_finite;
    exact Hm.
Qed.

Lemma enforceBarycenter_zero_mass_witness :
  is_zero (totalMass Samples.massless) = true
  /\ Forall (fun b => is_finite (x (velocity b)) = false
                      /\ is_finite (y (velocity b)) = false
                      /\ is_finite (z (velocity b)) = false)
            (enforceBarycenter Samples.massless).
Proof.
  split; [reflexivity|].
  apply (enforceBarycenter_zero_mass Samples.massless). reflexivity.
Defined.

(** C3, as stated, fails: a lone massless body has total mass zero, and
    [enforceBarycenter] returns it, with a velocity of three NaNs. *)
Lemma enforceBarycenter_massless_nan :
  is_zero (totalMass Samples.massless) = true
  /\ enforceBarycenter Samples.massless
     = [ {| mass := 0;
            position := {| x := 0; y := 0; z := 0 |};
            velocity := {| x := nan; y := nan; z := nan |};
            acceleration := {| x := 0; y := 0; z := 0 |} |} ]
  /\ is_nan nan = true.
Proof. repeat split; reflexivity. Qed.

(** C9, as stated, fails: the buffer is one hidden object that all calls
    share.  After a step of [sysA] it holds the accelerations of [sysA],
    and this is the buffer the step of [sysB] starts from, resizes and
    leaves holding the acceleration of [sysB]. *)
Lemma static_buffer_is_shared :
  fst (fst (interleave [true] ([], Samples.sysA, Samples.sysB)))
  = [ {| x := 1; y := 0; z := 0 |}; {| x := -1; y := 0; z := 0 |} ]
  /\ fst (fst (interleave [true; false] ([], Samples.sysA, Samples.sysB)))
     = [ {| x := 0; y := 0; z := 0 |} ]
  /\ fst (fst (interleave [true] ([], Samples.sysA, Samples.sysB)))
     <> fst (fst (interleave [true; false] ([], Samples.sysA, Samples.sysB))).
Proof.
  split; [vm_compute; reflexivity|]. split; [vm_compute; reflexivity|].
  vm_compute. discriminate.
Qed.

(** C4, as stated, fails in the arithmetic the program runs on.  For the
    pair Jupiter, Saturn of [main], from zero accelerations: [mass_i]
    times what the pair adds to Jupiter is 5.6146918184074199e-07 along
    x, and the opposite of [mass_j] times what it adds to Saturn is
    5.6146918184074188e-07; they do not compare equal. *)
Lemma pair_step_third_law_rounds :
  exists ai aj : Vec3 float,
    pair_step 0 1 [Samples.jupiter; Samples.saturn]
    = [ set_acceleration ai Samples.jupiter;
        set_acceleration aj Samples.saturn ]
    /\ x (mass Samples.jupiter *^ (ai ^- acceleration Samples.jupiter))
       = 0x1.2d6fbc9c3c684p-21
    /\ - x (mass Samples.saturn *^ (aj ^- acceleration Samples.saturn))
       = 0x1.2d6fbc9c3c683p-21
    /\ (x (mass Samples.jupiter *^ (ai ^- acceleration Samples.jupiter))
        =? - x (mass Samples.saturn *^ (aj ^- acceleration Samples.saturn)))
       = false.
Proof.
  eexists _, _. split; [vm_compute; reflexivity|].
  repeat split; vm_compute; reflexivity.
Qed.

End IEEE.

(** ** What the pair loops read, for every arithmetic *)

Section Reads.
Context {D : Type} `{Double D}.
Local Open Scope double_scope.
Local Open Scope vec_scope.

Lemma fold_left_Forall2 {A B C : Type} (R : B -> C -> Prop)
    (f : A -> B -> A) (g : A -> C -> A) (l : list B) (l' : list C) (a : A) :
  Forall2 R l l' ->
  (forall a x y, R x y -> f a x = g a y) ->
  fold_left f l a = fold_left g l' a.
Proof.
  intros HR Hfg. revert a.
  induction HR as [|x y l l' Hxy _ IH]; intros a; simpl; [reflexivity|].
  rewrite (Hfg a x y Hxy). apply IH.
Qed.

Lemma net_acceleration_same_place (b b' : Body D) (a0 : Vec3 D)
    (earlier earlier' later later' : list (Body D)) :
  position b = position b' ->
  Forall2 same_place earlier earlier' ->
  Forall2 same_place later later' ->
  net_acceleration b a0 earlier later = net_acceleration b' a0 earlier' later'.
Proof.
  intros Hb He Hl. unfold net_acceleration.
  rewrite (fold_left_Forall2 same_place (pull_back b) (pull_back b')
             earlier earlier' a0 He).
  - apply (fold_left_Forall2 same_place); [exact Hl|].
    intros a c c' [Hm Hp]. unfold pull. rewrite Hm, Hp, Hb. reflexivity.
  - intros a c c' [Hm Hp]. unfold pull_back. rewrite Hm, Hp, Hb. reflexivity.
Qed.

Lemma computeAccelerations_imap (bodies : list (Body D)) :
  computeAccelerations bodies
  = imap (fun k b =>
            set_acceleration
              (net_acceleration b vzero (take k bodies) (drop (S k) bodies)) b)
         bodies.
Proof.
  unfold computeAccelerations.
  rewrite outer_loop_closed by reflexivity.
  change (map (set_acceleration vzero) bodies)
    with (set_acceleration vzero <$> bodies) at 1.
  rewrite imap_fmap. apply imap_ext. intros k b _. unfold compose.
  rewrite firstn_map, skipn_map.
  rewrite net_acceleration_map by (intros; split; reflexivity).
  reflexivity.
Qed.

(** Bodies of the same masses at the same places get the same
    accelerations, index by index. *)
Lemma computeAccelerations_same_place (l l' : list (Body D)) (k : nat)
    (b b' : Body D) :
  Forall2 same_place l l' ->
  l !! k = Some b -> l' !! k = Some b' ->
  exists a,
    computeAccelerations l !! k = Some (set_acceleration a b)
    /\ computeAccelerations l' !! k = Some (set_acceleration a b').
Proof.
  intros Hll Hb Hb'.
  exists (net_acceleration b vzero (take k l) (drop (S k) l)).
  rewrite !computeAccelerations_imap, !list_lookup_imap, Hb, Hb'. simpl.
  split; [reflexivity|]. do 2 f_equal.
  symmetry. apply net_acceleration_same_place.
  - destruct (Forall2_lookup_lr _ _ _ _ _ _ Hll Hb Hb') as [_ Hp]. exact Hp.
  - apply Forall2_take. exact Hll.
  - apply Forall2_drop. exact Hll.
Qed.

Lemma same_place_of_maps (l l' : list (Body D)) :
  map mass l = map mass l' -> map position l = map position l' ->
  Forall2 same_place l l'.
Proof.
  revert l'. induction l as [|b l IH]; intros [|b' l'] Hm Hp;
    try discriminate; [constructor|].
  simpl in Hm, Hp. injection Hm as Hm1 Hm2. injection Hp as Hp1 Hp2.
  constructor; [split; assumption|]. apply IH; assumption.
Qed.

Lemma computeAccelerations_keeps_place (l : list (Body D)) :
  Forall2 same_place l (computeAccelerations l).
Proof.
  apply same_place_of_maps; symmetry; apply computeAccelerations_members.
Qed.

(** A list that has, place by place, the accelerations the loops compute
    for it is left as it is by them. *)
Lemma computeAccelerations_settled (l r : list (Body D)) :
  Forall2 same_place l r ->
  map acceleration r = map acceleration (computeAccelerations l) ->
  computeAccelerations r = r.
Proof.
  intros Hlr Hacc.
  assert (Hlen : length l = length r) by (eapply Forall2_length; exact Hlr).
  apply (list_eq_same_length _ _ (length r));
    [reflexivity|apply computeAccelerations_length|].
  intros k c' c Hk Hc' Hc.
  destruct (lookup_lt_is_Some_2 l k ltac:(lia)) as [b Hb].
  destruct (computeAccelerations_same_place l r k b c Hlr Hb Hc) as (a & Ha & Ha').
  rewrite Ha' in Hc'. injection Hc' as <-.
  assert (Hk' : (map acceleration r) !! k = (map acceleration (computeAccelerations l)) !! k)
    by (rewrite Hacc; reflexivity).
  change (map ?f ?l) with (f <$> l) in Hk'.
  rewrite !list_lookup_fmap, Hc, Ha in Hk'. simpl in Hk'.
  injection Hk' as <-. destruct c; reflexivity.
Qed.

End Reads.

(** ** The integrator and the start of [main], for every arithmetic *)

Section Invariants.
Context {D : Type} `{Double D}.
Local Open Scope double_scope.
Local Open Scope vec_scope.

Lemma velocityVerlet_length (buf : list (Vec3 D)) (l : list (Body D)) :
  length (snd (velocityVerlet buf l)) = length l.
Proof.
  rewrite velocityVerlet_raw. simpl.
  rewrite length_zip_with, computeAccelerations_length, !length_map. lia.
Qed.

(** Body [k] after a step, from body [k] before it. *)
Lemma velocityVerlet_lookup (buf : list (Vec3 D)) (l : list (Body D))
    (k : nat) (b : Body D) :
  l !! k = Some b ->
  exists a,
    computeAccelerations (map advance_position l) !! k
    = Some (set_acceleration a (advance_position b))
    /\ snd (velocityVerlet buf l) !! k
       = Some (finish_velocity (acceleration b)
                 (set_acceleration a (advance_position b))).
Proof.
  intros Hb.
  assert (Hm : map advance_position l !! k = Some (advance_position b)).
  { change (map ?f l) with (f <$> l). rewrite list_lookup_fmap, Hb. reflexivity. }
  destruct (computeAccelerations_lookup _ k _ Hm) as [a Ha].
  exists a. split; [exact Ha|].
  rewrite velocityVerlet_raw. simpl snd.
  rewrite lookup_zip_with, Ha.
  change (map acceleration l) with (acceleration <$> l).
  rewrite list_lookup_fmap, Hb. reflexivity.
Qed.

(** X1.  [computeAccelerations] reads masses and positions only: two
    vectors of bodies with the same masses at the same positions, whatever
    their velocities and their accelerations on entry (those of the bodies
    [main] builds are uninitialised), come out with the same
    accelerations. *)
Theorem computeAccelerations_reads_mass_position (l l' : list (Body D)) :
  map mass l = map mass l' ->
  map position l = map position l' ->
  map acceleration (computeAccelerations l)
  = map acceleration (computeAccelerations l').
Proof.
  intros Hm Hp.
  assert (Hll : Forall2 same_place l l') by (apply same_place_of_maps; assumption).
  assert (Hlen : length l = length l') by (eapply Forall2_length; exact Hll).
  apply (list_eq_same_length _ _ (length l));
    [rewrite length_map, computeAccelerations_length; lia
    |rewrite length_map, computeAccelerations_length; lia|].
  intros k a a' Hk. change (map ?f ?l) with (f <$> l).
  rewrite !list_lookup_fmap.
  destruct (lookup_lt_is_Some_2 l k Hk) as [b Hb].
  destruct (lookup_lt_is_Some_2 l' k ltac:(lia)) as [b' Hb'].
  destruct (computeAccelerations_same_place l l' k b b' Hll Hb Hb')
    as (c & -> & ->).
  simpl. intros [= <-] [= <-]. reflexivity.
Qed.

(** X2.  [computeAccelerations] is idempotent: called on its own result
    it changes nothing. *)
Theorem computeAccelerations_idempotent (l : list (Body D)) :
  computeAccelerations (computeAccelerations l) = computeAccelerations l.
Proof.
  apply (computeAccelerations_settled l);
    [apply computeAccelerations_keeps_place|reflexivity].
Qed.

(** The bodies a step returns carry the accelerations of their own
    positions. *)
Lemma velocityVerlet_settled (buf : list (Vec3 D)) (l : list (Body D)) :
  computeAccelerations (snd (velocityVerlet buf l)) = snd (velocityVerlet buf l).
Proof.
  apply (computeAccelerations_settled (map advance_position l)).
  - apply Forall2_same_length_lookup_2.
    + rewrite velocityVerlet_length, length_map. reflexivity.
    + intros k m c Hm Hc.
      change (map ?f l) with (f <$> l) in Hm. rewrite list_lookup_fmap in Hm.
      destruct (l !! k) as [b|] eqn:Hb; [|discriminate].
      simpl in Hm. injection Hm as <-.
      destruct (velocityVerlet_lookup buf l k b Hb) as (a & _ & Hc').
      rewrite Hc' in Hc. injection Hc as <-. split; reflexivity.
  - apply (list_eq_same_length _ _ (length l));
      [rewrite length_map, computeAccelerations_length, length_map; reflexivity
      |rewrite length_map, velocityVerlet_length; reflexivity|].
    intros k a a' Hk. change (map ?f ?l) with (f <$> l).
    rewrite !list_lookup_fmap.
    destruct (lookup_lt_is_Some_2 l k Hk) as [b Hb].
    destruct (velocityVerlet_lookup buf l k b Hb) as (c & -> & ->).
    simpl. intros [= <-] [= <-]. reflexivity.
Qed.

(** X3.  Every step leaves the accelerations that belong to the positions
    it leaves, which is what the next step reads as its old accelerations:
    calling [computeAccelerations] on the bodies a step (hence a run of one
    step or more) returns changes nothing. *)
Theorem velocityVerlet_accelerations_consistent (n : nat)
    (buf : list (Vec3 D)) (l : list (Body D)) :
  computeAccelerations (snd (velocityVerlet buf l)) = snd (velocityVerlet buf l)
  /\ computeAccelerations (snd (alone (S n) (buf, l))) = snd (alone (S n) (buf, l)).
Proof.
  split; [apply velocityVerlet_settled|].
  unfold alone. simpl Nat.iter. unfold call_velocityVerlet at 1.
  apply velocityVerlet_settled.
Qed.

Lemma velocityVerlet_masses (buf : list (Vec3 D)) (l : list (Body D)) :
  map mass (snd (velocityVerlet buf l)) = map mass l.
Proof.
  apply (list_eq_same_length _ _ (length l));
    [rewrite length_map; reflexivity
    |rewrite length_map, velocityVerlet_length; reflexivity|].
  intros k m m' Hk. change (map ?f ?l) with (f <$> l).
  rewrite !list_lookup_fmap.
  destruct (lookup_lt_is_Some_2 l k Hk) as [b Hb].
  destruct (velocityVerlet_lookup buf l k b Hb) as (c & _ & ->).
  rewrite Hb. simpl. intros [= <-] [= <-]. reflexivity.
Qed.

(** X4.  No number of steps changes a mass, nor the number or the order
    of the bodies: bodies neither merge nor vanish. *)
Theorem alone_masses (n : nat) (buf : list (Vec3 D)) (l : list (Body D)) :
  map mass (snd (alone n (buf, l))) = map mass l
  /\ length (snd (alone n (buf, l))) = length l.
Proof.
  revert buf l. induction n as [|n IH]; intros buf l; [split; reflexivity|].
  rewrite alone_succ.
  destruct (velocityVerlet buf l) as [buf' l'] eqn:E.
  assert (El : l' = snd (velocityVerlet buf l)) by (rewrite E; reflexivity).
  destruct (IH buf' l') as [IHm IHl]. rewrite IHm, IHl, El.
  split; [apply velocityVerlet_masses|apply velocityVerlet_length].
Qed.

(** The totals of [enforceBarycenter] read masses and velocities only. *)
Lemma totals_same_motion (l l' : list (Body D)) :
  Forall2 (fun b b' => mass b = mass b' /\ velocity b = velocity b') l l' ->
  totals l = totals l'.
Proof.
  intros Hll. unfold totals.
  apply (fold_left_Forall2 _ _ _ _ _ _ Hll).
  intros [p m] b b' [-> ->]. reflexivity.
Qed.

(** X5.  The two calls that start [main] commute: enforcing the barycenter
    before computing the accelerations gives the same bodies as after. *)
Theorem enforceBarycenter_computeAccelerations_commute (l : list (Body D)) :
  enforceBarycenter (computeAccelerations l)
  = computeAccelerations (enforceBarycenter l).
Proof.
  rewrite !enforceBarycenter_unfold.
  assert (Ht : totals (computeAccelerations l) = totals l).
  { symmetry. apply totals_same_motion.
    apply Forall2_same_length_lookup_2;
      [symmetry; apply computeAccelerations_length|].
    intros k b b' Hb Hb'.
    destruct (computeAccelerations_lookup l k b Hb) as [a Ha].
    rewrite Ha in Hb'. injection Hb' as <-. split; reflexivity. }
  unfold totalMomentum, totalMass. rewrite Ht.
  set (shift := fun b : Body D =>
         set_velocity (velocity b ^- (totals l).1 ^/ (totals l).2) b).
  apply (list_eq_same_length _ _ (length l));
    [rewrite computeAccelerations_length, length_map; reflexivity
    |rewrite length_map, computeAccelerations_length; reflexivity|].
  intros k c c' Hk. change (map shift ?l) with (shift <$> l).
  rewrite list_lookup_fmap.
  destruct (lookup_lt_is_Some_2 l k Hk) as [b Hb].
  assert (Hs : (shift <$> l) !! k = Some (shift b))
    by (rewrite list_lookup_fmap, Hb; reflexivity).
  assert (Hll : Forall2 same_place l (shift <$> l)).
  { apply Forall2_same_length_lookup_2; [rewrite length_fmap; reflexivity|].
    intros i u v Hu Hv. rewrite list_lookup_fmap, Hu in Hv.
    injection Hv as <-. split; reflexivity. }
  destruct (computeAccelerations_same_place l (shift <$> l) k b (shift b) Hll Hb Hs)
    as (a & -> & ->).
  simpl. intros [= <-] [= <-]. reflexivity.
Qed.

(** X20.  [computeAccelerations] writes accelerations only: the masses,
    the positions and the velocities, in order, and the number of bodies
    are the ones it was given. *)
Theorem computeAccelerations_frame (l : list (Body D)) :
  map mass (computeAccelerations l) = map mass l
  /\ map position (computeAccelerations l) = map position l
  /\ map velocity (computeAccelerations l) = map velocity l
  /\ length (computeAccelerations l) = length l.
Proof.
  destruct (computeAccelerations_members l) as (Hm & Hp & Hv).
  repeat split; try assumption. apply computeAccelerations_length.
Qed.

(** X6.  With fewer than two bodies there is no pair to visit: every
    acceleration comes out zero, and nothing else is touched. *)
Theorem computeAccelerations_no_pair (l : list (Body D)) :
  length l <= 1 ->
  computeAccelerations l = map (set_acceleration vzero) l.
Proof.
  destruct l as [|b [|c l]]; simpl length; intros Hlen;
    [reflexivity|reflexivity|lia].
Qed.

End Invariants.

(** ** The main loop: closing the window, trails *)

Section MainLoop.
Context {D : Type} `{Double D}.

Lemma closed_stays_closed (events : list Event) :
  fold_left (fun o e => match e with Closed => false | OtherEvent => o end)
            events false = false.
Proof. induction events as [|[|] events IH]; simpl; assumption || reflexivity. Qed.

Lemma closed_event_closes (events : list Event) (o : bool) :
  In Closed events ->
  fold_left (fun o e => match e with Closed => false | OtherEvent => o end)
            events o = false.
Proof.
  revert o. induction events as [|e events IH]; intros o Hin; [destruct Hin|].
  destruct Hin as [->|Hin]; simpl.
  - apply closed_stays_closed.
  - apply IH. exact Hin.
Qed.

Lemma run_closed (ticks : list (list Event)) (st : bool * Engine (D := D)) :
  fst st = false -> run ticks st = st.
Proof. intros Hc. destruct ticks; simpl; [reflexivity|]. rewrite Hc. reflexivity. Qed.

(** X7.  [window.close()] does not leave the round: the round in which a
    [Closed] event arrives still makes its five sub-steps, and it is the
    last round, whatever ticks follow.  On a window already closed the loop
    runs no round. *)
Theorem run_until_closed (events : list Event) (ticks : list (list Event))
    (st : bool * Engine (D := D)) :
  fst st = true ->
  In Closed events ->
  run (events :: ticks) st = (false, substeps (snd st))
  /\ run ticks (false, snd st) = (false, snd st).
Proof.
  intros Hopen Hin. split; [|apply run_closed; reflexivity].
  simpl run. rewrite Hopen. rewrite run_closed.
  - unfold frame. rewrite closed_event_closes by exact Hin. reflexivity.
  - unfold frame. simpl fst. apply closed_event_closes. exact Hin.
Qed.

Context {Point : Type}.
Variable toScreen : Vec3 D -> Point.

Lemma push_trail_window (p : Point) (trail : list Point) :
  length trail <= MAX_TRAIL ->
  push_trail p trail
  = drop (length (trail ++ [p]) - MAX_TRAIL) (trail ++ [p]).
Proof.
  unfold push_trail. generalize MAX_TRAIL. intros M Hlen. cbv zeta.
  rewrite length_app. simpl length.
  destruct (Nat.ltb_spec M (length trail + 1)) as [Hlt|Hge].
  - replace (length trail + 1 - M) with 1 by lia. reflexivity.
  - replace (length trail + 1 - M) with 0 by lia. reflexivity.
Qed.

Lemma push_trail_length (p : Point) (trail : list Point) :
  length trail <= MAX_TRAIL ->
  length (push_trail p trail) = Nat.min (S (length trail)) MAX_TRAIL.
Proof.
  intros Hlen. rewrite push_trail_window by exact Hlen.
  rewrite length_drop, length_app. simpl length. lia.
Qed.

Lemma push_trail_last (p : Point) (trail : list Point) :
  last (push_trail p trail) = Some p.
Proof.
  unfold push_trail. cbv zeta.
  destruct (Nat.ltb_spec MAX_TRAIL (length (trail ++ [p]))) as [Hlt|Hge];
    [|apply last_snoc].
  destruct trail as [|q trail]; [|simpl; apply last_snoc].
  simpl in Hlt. unfold MAX_TRAIL in Hlt. lia.
Qed.

(** X8.  A trail is a sliding window: pushing points one by one on an
    empty trail leaves the last [MAX_TRAIL] of them (all of them while
    there are no more than that), oldest first. *)
Theorem push_trail_sliding_window (points : list Point) :
  fold_left (fun trail p => push_trail p trail) points []
  = drop (length points - MAX_TRAIL) points.
Proof.
  induction points as [|p points IH] using rev_ind; [reflexivity|].
  rewrite fold_left_app. simpl fold_left. rewrite IH.
  rewrite push_trail_window by (rewrite length_drop; lia).
  rewrite length_app, length_drop, !length_app. simpl length.
  generalize MAX_TRAIL. intros M.
  destruct (le_lt_dec (length points) M) as [Hle|Hgt].
  - replace (length points - M) with 0 by lia. rewrite drop_0.
    f_equal. lia.
  - replace (length points - (length points - M) + 1 - M) with 1 by lia.
    replace (length points + 1 - M) with (S (length points - M)) by lia.
    rewrite <- drop_app_le by lia.
    rewrite drop_drop. f_equal. lia.
Qed.

Lemma update_trails_spec (bodies : list (Body D))
    (trails : list (list Point)) :
  Forall (fun trail => length trail <= MAX_TRAIL) trails ->
  Forall (fun trail => length trail <= MAX_TRAIL) (update_trails toScreen bodies trails)
  /\ (forall k b trail,
        bodies !! k = Some b -> trails !! k = Some trail ->
        exists trail',
          update_trails toScreen bodies trails !! k = Some trail'
          /\ length trail' = Nat.min (S (length trail)) MAX_TRAIL
          /\ last trail' = Some (toScreen (position b))).
Proof.
  intros Hb. split.
  - apply Forall_lookup_2. intros k t Ht.
    unfold update_trails in Ht. rewrite lookup_zip_with in Ht.
    destruct (bodies !! k) as [b|]; [|discriminate]. simpl in Ht.
    destruct (trails !! k) as [t0|] eqn:Ht0; [|discriminate]. simpl in Ht.
    injection Ht as <-.
    rewrite push_trail_length by exact (Forall_lookup_1 _ _ _ _ Hb Ht0). lia.
  - intros k b trail Hk Ht.
    assert (Hlen : length trail <= MAX_TRAIL) by exact (Forall_lookup_1 _ _ _ _ Hb Ht).
    exists (push_trail (toScreen (position b)) trail).
    split; [|split].
    + unfold update_trails. rewrite lookup_zip_with, Hk, Ht. reflexivity.
    + apply push_trail_length. exact Hlen.
    + apply push_trail_last.
Qed.

(** X9.  A round of the main loop never lets a trail grow past
    [MAX_TRAIL] points: trails within the bound stay within it; each
    gains one point until it is full, and ends with the screen point of
    the position its body has after the five sub-steps of the round.  The
    trail loop changes nothing of the physics. *)
Theorem frame_trails_bounded (events : list Event)
    (st : bool * Engine (D := D) * list (list Point)) :
  Forall (fun trail => length trail <= MAX_TRAIL) (snd st) ->
  fst (frame_trails toScreen events st) = frame events (fst st)
  /\ Forall (fun trail => length trail <= MAX_TRAIL)
            (snd (frame_trails toScreen events st))
  /\ (forall k b trail,
        snd (substeps (snd (fst st))) !! k = Some b ->
        snd st !! k = Some trail ->
        exists trail',
          snd (frame_trails toScreen events st) !! k = Some trail'
          /\ length trail' = Nat.min (S (length trail)) MAX_TRAIL
          /\ last trail' = Some (toScreen (position b))).
Proof.
  intros Hb. unfold frame_trails. cbv zeta. cbn [fst snd].
  split; [reflexivity|].
  destruct (update_trails_spec (snd (snd (frame events (fst st)))) (snd st) Hb)
    as [Hall Hk].
  split; [exact Hall|]. intros k b trail Hbk Ht. apply Hk; assumption.
Qed.

End MainLoop.

(** ** Exact arithmetic: gravity between two places *)

Section ExactForce.
Local Open Scope R_scope.
Local Open Scope vec_scope.

Ltac vsimpl :=
  cbn [x y z vadd vsub vmul smul vdiv vzero vopp vcross vdot
       dadd dsub dmul ddiv lit_0 lit_1 R_double
       mass position velocity acceleration
       set_position set_velocity set_acceleration] in *.

Ltac vring := apply vec3_eq; vsimpl; ring.

Lemma G_positive : 0 < (G : R).
Proof.
  unfold G. cbn [dmul lit_4 M_PI R_double].
  pose proof PI_RGT_0. nra.
Qed.

Lemma norm_nonneg (v : Vec3 R) : 0 <= norm v.
Proof. unfold norm. cbn [dsqrt R_double]. apply sqrt_pos. Qed.

Lemma EPS_positive : 0 < (EPS : R).
Proof. unfold EPS. cbn [lit_1e_10 R_double]. lra. Qed.

Lemma norm_opposite (p q : Vec3 R) : norm (q ^- p) = norm (p ^- q).
Proof.
  unfold norm. cbn [dsqrt dadd dmul R_double]. f_equal. vsimpl. ring.
Qed.

(** X10.  The divisor of the force term is positive, so the pair loops
    never divide by zero, for coincident bodies as for any others: the
    term for the places [p], [q] is [r * (G / dist^3)] with [r = q - p],
    [dist = sqrt (r.x^2 + r.y^2 + r.z^2) + 1e-10], [G = 4 * PI * PI], and
    [dist^3 > 0].  The term is antisymmetric in its two places, and two
    bodies at one place exert nothing on each other. *)
Theorem force_laws (p q : Vec3 R) :
  let r := q ^- p in
  let dist := R_sqrt.sqrt (x r * x r + y r * y r + z r * z r)
              + 1 / 10000000000 in
  0 < dist * dist * dist
  /\ force p q = r ^* (4 * PI * PI / (dist * dist * dist))
  /\ force q p = vopp (force p q)
  /\ force p p = vzero.
Proof.
  intros r dist.
  assert (Hd : 0 < dist).
  { unfold dist. pose proof (sqrt_pos (x r * x r + y r * y r + z r * z r)). lra. }
  split; [|split; [|split]].
  - apply Rmult_lt_0_compat; [apply Rmult_lt_0_compat|]; exact Hd.
  - assert (Hf : force p q = r ^* (4 * PI * PI * (1 / (dist * dist * dist))))
      by reflexivity.
    rewrite Hf. generalize (dist * dist * dist). intros d3.
    apply vec3_eq; vsimpl; unfold Rdiv; ring.
  - unfold force. cbv zeta. rewrite (norm_opposite q p).
    generalize (G * (lit_1 / ((norm (q ^- p) + EPS) * (norm (q ^- p) + EPS)
                               * (norm (q ^- p) + EPS))))%D.
    intros s. vring.
  - unfold force. cbv zeta.
    generalize (G * (lit_1 / ((norm (p ^- p) + EPS) * (norm (p ^- p) + EPS)
                               * (norm (p ^- p) + EPS))))%D.
    intros s. vring.
Qed.

(** X11.  Between two bodies gravity attracts: with
    [r = position_1 - position_0],
    [dist = sqrt (r.x^2 + r.y^2 + r.z^2) + 1e-10] and the positive factor
    [s = G / dist^3], [G = 4 * PI * PI], body 0 is accelerated by
    [s * mass_1 * r] and body 1 by the opposite of [s * mass_0 * r]. *)
Theorem two_bodies_attract (b0 b1 : Body R) :
  let r := position b1 ^- position b0 in
  let dist := R_sqrt.sqrt (x r * x r + y r * y r + z r * z r)
              + 1 / 10000000000 in
  let s := 4 * PI * PI / (dist * dist * dist) in
  0 < s
  /\ computeAccelerations [b0; b1]
     = [ set_acceleration ((s * mass b1) *^ r) b0;
         set_acceleration (vopp ((s * mass b0) *^ r)) b1 ].
Proof.
  intros r dist s.
  assert (Hd : 0 < dist).
  { unfold dist. pose proof (sqrt_pos (x r * x r + y r * y r + z r * z r)). lra. }
  assert (Hd3 : 0 < dist * dist * dist).
  { apply Rmult_lt_0_compat; [apply Rmult_lt_0_compat|]; exact Hd. }
  assert (Hs : 0 < s).
  { unfold s. apply Rdiv_lt_0_compat; [|exact Hd3].
    pose proof PI_RGT_0. nra. }
  split; [exact Hs|].
  assert (Hf : force (position b0) (position b1) = r ^* s).
  { assert (Hf' : force (position b0) (position b1)
                  = r ^* (4 * PI * PI * (1 / (dist * dist * dist))))
      by reflexivity.
    rewrite Hf'. unfold s. generalize (dist * dist * dist). intros d3.
    apply vec3_eq; vsimpl; unfold Rdiv; ring. }
  unfold computeAccelerations, outer_loop, inner_loop, pair_step.
  cbn -[force]. rewrite Hf. clearbody s r.
  unfold set_acceleration. cbn [mass position velocity acceleration].
  f_equal; [|f_equal]; f_equal; vring.
Qed.

(** X12.  [makePlanet] puts the planet at distance [radius] from the
    origin, moving at right angles to its position, at the speed of a
    circular orbit round a unit mass: speed squared is [G / radius].  The
    mass is the one asked for. *)
Theorem makePlanet_circular (m radius : R) (garbage : Vec3 R) :
  0 < radius ->
  let b := makePlanet m radius garbage in
  mass b = m
  /\ norm (position b) = radius
  /\ vdot (position b) (velocity b) = 0
  /\ vdot (velocity b) (velocity b) = G / radius.
Proof.
  intros Hr b. unfold b, makePlanet. cbv zeta.
  cbn [mass position velocity]. repeat split.
  - unfold norm. vsimpl. cbn [dsqrt R_double].
    replace (radius * radius + 0 * 0 + 0 * 0) with (radius * radius) by ring.
    apply sqrt_square. lra.
  - unfold vdot. vsimpl. ring.
  - unfold vdot. vsimpl. cbn [dsqrt R_double].
    replace (0 * 0 + R_sqrt.sqrt (G / radius) * R_sqrt.sqrt (G / radius) + 0 * 0)
      with (R_sqrt.sqrt (G / radius) * R_sqrt.sqrt (G / radius)) by ring.
    apply sqrt_sqrt. apply Rlt_le. apply Rdiv_lt_0_compat; [apply G_positive|exact Hr].
Qed.

End ExactForce.

(** ** Exact arithmetic: symmetries of the accelerations *)

Section ExactSymmetry.
Local Open Scope R_scope.
Local Open Scope vec_scope.

Ltac vsimpl :=
  cbn [x y z vadd vsub vmul smul vdiv vzero vopp vcross vdot
       dadd dsub dmul ddiv lit_0 lit_1 R_double
       mass position velocity acceleration
       set_position set_velocity set_acceleration] in *.

Ltac vring := apply vec3_eq; vsimpl; ring.

Lemma force_translate (c p q : Vec3 R) :
  force (p ^+ c) (q ^+ c) = force p q.
Proof.
  unfold force. cbv zeta.
  replace ((q ^+ c) ^- (p ^+ c)) with (q ^- p) by vring. reflexivity.
Qed.

Lemma net_acceleration_translate (c : Vec3 R) (b : Body R) (a0 : Vec3 R)
    (earlier later : list (Body R)) :
  let move := fun b : Body R => set_position (position b ^+ c) b in
  net_acceleration (move b) a0 (map move earlier) (map move later)
  = net_acceleration b a0 earlier later.
Proof.
  intros move. unfold net_acceleration.
  rewrite (fold_left_map_eq (pull_back (move b)) (pull_back b) move).
  - apply fold_left_map_eq. intros a d. unfold pull, move.
    cbn [mass position set_position]. rewrite force_translate. reflexivity.
  - intros a d. unfold pull_back, move.
    cbn [mass position set_position]. rewrite force_translate. reflexivity.
Qed.

(** X13.  The accelerations do not depend on where the origin is: moving
    every body by one and the same vector and computing the accelerations
    gives the accelerations of the bodies where they were. *)
Theorem computeAccelerations_translation (c : Vec3 R) (l : list (Body R)) :
  computeAccelerations (map (fun b => set_position (position b ^+ c) b) l)
  = map (fun b => set_position (position b ^+ c) b) (computeAccelerations l).
Proof.
  set (move := fun b : Body R => set_position (position b ^+ c) b).
  rewrite !computeAccelerations_imap.
  change (map move ?l) with (move <$> l).
  rewrite imap_fmap, fmap_imap. apply imap_ext. intros k b _. unfold compose.
  change (move <$> l) with (map move l).
  rewrite firstn_map, skipn_map.
  rewrite (net_acceleration_translate c b vzero). reflexivity.
Qed.

Lemma pull_massless (c : Body R) (before after : list (Body R)) (b : Body R)
    (a : Vec3 R) :
  mass b = 0 ->
  fold_left (pull c) (before ++ b :: after) a
  = fold_left (pull c) (before ++ after) a.
Proof.
  intros Hm. rewrite !fold_left_app. simpl fold_left. f_equal.
  unfold pull. rewrite Hm. vring.
Qed.

Lemma pull_back_massless (c : Body R) (before after : list (Body R))
    (b : Body R) (a : Vec3 R) :
  mass b = 0 ->
  fold_left (pull_back c) (before ++ b :: after) a
  = fold_left (pull_back c) (before ++ after) a.
Proof.
  intros Hm. rewrite !fold_left_app. simpl fold_left. f_equal.
  unfold pull_back. rewrite Hm. vring.
Qed.

(** X14.  A body of mass zero pulls on nobody: the others get the
    accelerations they get without it.  (It is pulled itself as any body
    is.) *)
Theorem computeAccelerations_massless (before after : list (Body R))
    (b : Body R) :
  mass b = 0 ->
  delete (length before) (computeAccelerations (before ++ b :: after))
  = computeAccelerations (before ++ after).
Proof.
  intros Hm. set (n := length before).
  apply (list_eq_same_length _ _ (length (before ++ after))).
  - apply computeAccelerations_length.
  - rewrite length_delete.
    + rewrite computeAccelerations_length, !length_app. simpl. lia.
    + apply lookup_lt_is_Some. rewrite computeAccelerations_length, length_app.
      simpl. fold n. lia.
  - intros k u v Hk Hu Hv. rewrite length_app in Hk. fold n in Hk.
    rewrite computeAccelerations_imap, list_lookup_imap in Hv.
    destruct (decide (k < n)%nat) as [Hlt|Hge].
    + rewrite list_lookup_delete_lt in Hu by exact Hlt.
      rewrite computeAccelerations_imap, list_lookup_imap in Hu.
      rewrite lookup_app_l in Hu, Hv by (fold n; lia).
      destruct (before !! k) as [c|]; [|discriminate].
      simpl in Hu, Hv. injection Hu as <-. injection Hv as <-. f_equal.
      rewrite !take_app_le by (fold n; lia).
      rewrite !drop_app_le by (fold n; lia).
      unfold net_acceleration. apply pull_massless. exact Hm.
    + rewrite list_lookup_delete_ge in Hu by lia.
      rewrite computeAccelerations_imap, list_lookup_imap in Hu.
      rewrite lookup_app_r in Hu, Hv by (fold n; lia). fold n in Hu, Hv.
      replace (S k - n)%nat with (S (k - n)) in Hu by lia. simpl lookup in Hu.
      destruct (after !! (k - n)%nat) as [c|]; [|discriminate].
      simpl in Hu, Hv. injection Hu as <-. injection Hv as <-. f_equal.
      rewrite !take_app_ge by (fold n; lia).
      rewrite !drop_app_ge by (fold n; lia). fold n.
      replace (S k - n)%nat with (S (k - n)) by lia.
      replace (S (S k) - n)%nat with (S (S (k - n))) by lia.
      simpl take. simpl drop.
      unfold net_acceleration. f_equal. apply pull_back_massless. exact Hm.
Qed.

(** X15.  On a system whose total mass is not zero, [enforceBarycenter]
    changes no relative velocity: any two bodies move with respect to each
    other as they did. *)
Theorem enforceBarycenter_relative_velocity (l : list (Body R)) (i j : nat)
    (bi bj : Body R) :
  totalMass l <> 0 ->
  l !! i = Some bi ->
  l !! j = Some bj ->
  exists bi' bj',
    enforceBarycenter l !! i = Some bi'
    /\ enforceBarycenter l !! j = Some bj'
    /\ velocity bi' ^- velocity bj' = velocity bi ^- velocity bj.
Proof.
  intros _ Hi Hj. rewrite enforceBarycenter_unfold.
  change (map ?f l) with (f <$> l). rewrite !list_lookup_fmap, Hi, Hj. simpl.
  eexists _, _. split; [reflexivity|]. split; [reflexivity|].
  generalize (totalMomentum l ^/ totalMass l). intros c. vring.
Qed.

End ExactSymmetry.

(** ** Exact arithmetic: what a run conserves *)

Section ExactMotion.
Local Open Scope R_scope.
Local Open Scope vec_scope.

Ltac vsimpl :=
  cbn [x y z vadd vsub vmul smul vdiv vzero vopp vcross vdot
       dadd dsub dmul ddiv lit_0 lit_1 R_double
       mass position velocity acceleration
       set_position set_velocity set_acceleration] in *.

Ltac vring := apply vec3_eq; vsimpl; ring.

Lemma weighted_rel (member member' : Body R -> Vec3 R) (l r : list (Body R)) :
  Forall2 (fun b c => mass c = mass b /\ member c = member' b) l r ->
  weighted member r = weighted member' l.
Proof.
  intros Hlr. unfold weighted. symmetry.
  apply (fold_left_Forall2 _ _ _ _ _ _ Hlr).
  intros a b c [-> ->]. reflexivity.
Qed.

(** Body by body, what a step makes of the bodies it is given. *)
Lemma velocityVerlet_bodies (buf : list (Vec3 R)) (l : list (Body R)) :
  Forall2
    (fun b c => exists a',
       c = finish_velocity (acceleration b)
             (set_acceleration a' (advance_position b)))
    l (snd (velocityVerlet buf l)).
Proof.
  apply Forall2_same_length_lookup_2.
  - symmetry. apply velocityVerlet_length.
  - intros k b c Hb Hc.
    destruct (velocityVerlet_lookup buf l k b Hb) as (a & _ & Hc').
    rewrite Hc' in Hc. injection Hc as <-. exists a. reflexivity.
Qed.

Lemma weighted_advance (l : list (Body R)) :
  weighted (fun b => position (advance_position b)) l
  = weighted position l ^+ weighted velocity l ^* dt
    ^+ weighted acceleration l ^* (lit_0_5 * dt * dt)%D.
Proof.
  induction l as [|b l IH].
  - unfold weighted. simpl. vring.
  - rewrite !weighted_cons, IH. unfold advance_position.
    cbn [position set_position].
    generalize (dt : R) (lit_0_5 : R). intros t h. vring.
Qed.

(** A step moves the mass-weighted sum of the positions by the momentum
    times [dt], when the mass-weighted accelerations sum to zero. *)
Lemma velocityVerlet_barycenter (buf : list (Vec3 R)) (l : list (Body R)) :
  weighted acceleration l = vzero ->
  weighted position (snd (velocityVerlet buf l))
  = weighted position l ^+ totalMomentum l ^* dt.
Proof.
  intros Hbal.
  rewrite (weighted_rel position (fun b => position (advance_position b)) l).
  - rewrite weighted_advance, Hbal, totalMomentum_weighted.
    generalize (dt : R) (lit_0_5 : R). intros t h. vring.
  - eapply Forall2_impl; [apply velocityVerlet_bodies|].
    intros b c [a' ->]. split; reflexivity.
Qed.

Lemma init_start (bodies : list (Body R)) :
  0 < totalMass bodies ->
  weighted acceleration (init bodies) = vzero
  /\ totalMomentum (init bodies) = vzero
  /\ weighted position (init bodies) = weighted position bodies.
Proof.
  intros Hm. unfold init. rewrite enforceBarycenter_unfold. repeat split.
  - rewrite weighted_map by (intros; split; reflexivity).
    apply computeAccelerations_balanced.
  - rewrite <- enforceBarycenter_unfold.
    apply enforceBarycenter_totals.
    rewrite totalMass_masses, (proj1 (computeAccelerations_members bodies)).
    rewrite <- totalMass_masses. exact Hm.
  - rewrite weighted_map by (intros; split; reflexivity).
    apply weighted_rel. apply Forall2_same_length_lookup_2.
    + symmetry. apply computeAccelerations_length.
    + intros k b c Hb Hc.
      destruct (computeAccelerations_lookup bodies k b Hb) as [a Ha].
      rewrite Ha in Hc. injection Hc as <-. split; reflexivity.
Qed.

(** X16.  The barycenter stays where it is: on a system of positive total
    mass started as [main] starts it, the mass-weighted sum of the
    positions after any number of steps is the one of the bodies [main]
    built; the system does not drift. *)
Theorem barycenter_stationary (bodies : list (Body R)) (n : nat)
    (buf : list (Vec3 R)) :
  0 < totalMass bodies ->
  weighted position (snd (alone n (buf, init bodies)))
  = weighted position bodies.
Proof.
  intros Hm. destruct (init_start bodies Hm) as (Hbal & Hp & Hpos).
  rewrite <- Hpos. induction n as [|n IH]; [reflexivity|].
  destruct (alone_momentum n buf (init bodies) Hbal) as [Hpn Hban].
  unfold alone in *. simpl Nat.iter. unfold call_velocityVerlet at 1.
  rewrite velocityVerlet_barycenter by exact Hban.
  rewrite IH, Hpn, Hp. generalize (dt : R). intros t. vring.
Qed.

(** A round of the outer loop exerts no net torque: the terms of a pair
    lie along the line through its two bodies. *)
Lemma round_torque (b : Body R) (l : list (Body R)) (a : Vec3 R) :
  mass b *^ vcross (position b) (fold_left (pull b) l a)
  ^+ torque (map (give_to b) l)
  = mass b *^ vcross (position b) a ^+ torque l.
Proof.
  unfold torque. revert a. induction l as [|c l IH]; intros a.
  - reflexivity.
  - simpl fold_left. simpl map. rewrite !weighted_cons.
    transitivity
      (mass b *^ vcross (position b) (fold_left (pull b) l (pull b a c))
       ^+ weighted (fun b0 => vcross (position b0) (acceleration b0))
            (map (give_to b) l)
       ^+ mass (give_to b c)
          *^ vcross (position (give_to b c)) (acceleration (give_to b c))).
    { vring. }
    rewrite IH. unfold pull, give_to, pull_back, force. cbv zeta.
    generalize (G * (lit_1 / ((norm (position c ^- position b) + EPS)
                              * (norm (position c ^- position b) + EPS)
                              * (norm (position c ^- position b) + EPS))))%D.
    intros s.
    generalize (weighted (fun b0 => vcross (position b0) (acceleration b0)) l).
    intros w. vring.
Qed.

Lemma outer_loop_torque (n : nat) (l : list (Body R)) :
  length l = n -> torque (outer_loop n l) = torque l.
Proof.
  unfold torque.
  revert l. induction n as [|n IH]; intros [|b l] Hlen; try discriminate.
  - reflexivity.
  - injection Hlen as Hlen. subst n.
    rewrite outer_loop_cons, !weighted_cons.
    rewrite IH by apply length_map.
    cbn [mass position acceleration set_acceleration].
    apply round_torque.
Qed.

Lemma computeAccelerations_torque_free (l : list (Body R)) :
  torque (computeAccelerations l) = vzero.
Proof.
  unfold computeAccelerations. rewrite outer_loop_torque by reflexivity.
  unfold torque. induction l as [|b l IH]; [reflexivity|].
  simpl map. rewrite weighted_cons, IH. vring.
Qed.

(** The angular momentum after a step, from the one before and the two
    torques. *)
Lemma kick_angular (l r : list (Body R)) :
  Forall2
    (fun b c => exists a',
       c = finish_velocity (acceleration b)
             (set_acceleration a' (advance_position b)))
    l r ->
  angular_momentum r
  = angular_momentum l ^+ (torque l ^+ torque r) ^* (lit_0_5 * dt)%D.
Proof.
  unfold angular_momentum, torque.
  induction 1 as [|b c l r [a' ->] _ IH].
  - unfold weighted. simpl. vring.
  - rewrite !weighted_cons, IH.
    unfold finish_velocity, advance_position.
    cbn [mass position velocity acceleration
         set_position set_velocity set_acceleration].
    generalize (dt : R) (lit_0_5 : R). intros t h.
    generalize (weighted (fun b0 => vcross (position b0) (velocity b0)) l)
               (weighted (fun b0 => vcross (position b0) (acceleration b0)) l)
               (weighted (fun b0 => vcross (position b0) (acceleration b0)) r).
    intros w1 w2 w3. vring.
Qed.

Lemma velocityVerlet_angular (buf : list (Vec3 R)) (l : list (Body R)) :
  computeAccelerations l = l ->
  angular_momentum (snd (velocityVerlet buf l)) = angular_momentum l.
Proof.
  intros Hs.
  rewrite (kick_angular l) by apply velocityVerlet_bodies.
  rewrite <- (velocityVerlet_settled buf l) at 1.
  rewrite <- Hs at 2.
  rewrite !computeAccelerations_torque_free.
  generalize (lit_0_5 * dt)%D. intros c. vring.
Qed.

Lemma alone_angular (n : nat) (buf : list (Vec3 R)) (l : list (Body R)) :
  computeAccelerations l = l ->
  angular_momentum (snd (alone n (buf, l))) = angular_momentum l
  /\ computeAccelerations (snd (alone n (buf, l))) = snd (alone n (buf, l)).
Proof.
  intros Hs. induction n as [|n [IHa IHs]]; [split; [reflexivity|exact Hs]|].
  unfold alone in *. simpl Nat.iter. unfold call_velocityVerlet at 1 3.
  split; [|apply velocityVerlet_settled].
  rewrite velocityVerlet_angular by exact IHs. exact IHa.
Qed.

Lemma init_settled (bodies : list (Body R)) :
  computeAccelerations (init bodies) = init bodies.
Proof.
  unfold init.
  apply (computeAccelerations_settled (computeAccelerations bodies)).
  - rewrite enforceBarycenter_unfold.
    apply Forall2_same_length_lookup_2; [rewrite length_map; reflexivity|].
    intros k b c Hb Hc. change (map ?f ?l) with (f <$> l) in Hc.
    rewrite list_lookup_fmap, Hb in Hc. injection Hc as <-. split; reflexivity.
  - rewrite (computeAccelerations_settled bodies (computeAccelerations bodies))
      by (apply computeAccelerations_keeps_place || reflexivity).
    rewrite enforceBarycenter_unfold, map_map. reflexivity.
Qed.

(** X17.  Integration conserves the angular momentum about the origin:
    after any number of steps from computed accelerations, and from the
    state [main] starts in, the sum of [mass * (position x velocity)] is
    what it was at the start. *)
Theorem angular_momentum_conserved (bodies : list (Body R)) (n : nat)
    (buf : list (Vec3 R)) :
  0 < totalMass bodies ->
  angular_momentum (snd (alone n (buf, computeAccelerations bodies)))
  = angular_momentum bodies
  /\ angular_momentum (snd (alone n (buf, init bodies)))
     = angular_momentum (init bodies).
Proof.
  intros _. split; [|apply alone_angular, init_settled].
  destruct (alone_angular n buf (computeAccelerations bodies)) as [-> _].
  - apply (computeAccelerations_settled bodies);
      [apply computeAccelerations_keeps_place|reflexivity].
  - unfold angular_momentum. apply weighted_rel.
    apply Forall2_same_length_lookup_2.
    + symmetry. apply computeAccelerations_length.
    + intros k b c Hb Hc.
      destruct (computeAccelerations_lookup bodies k b Hb) as [a Ha].
      rewrite Ha in Hc. injection Hc as <-. split; reflexivity.
Qed.

Lemma reversed_lookup (l : list (Body R)) (k : nat) (c : Body R) :
  l !! k = Some c ->
  reversed l !! k = Some (set_velocity (vopp (velocity c)) c).
Proof.
  intros Hc. unfold reversed. change (map ?f l) with (f <$> l).
  rewrite list_lookup_fmap, Hc. reflexivity.
Qed.

(** A step, the velocities turned round, a step: body [k] is back where
    it was. *)
Lemma back_in_place (b : Body R) (a' : Vec3 R) :
  let c := finish_velocity (acceleration b)
             (set_acceleration a' (advance_position b)) in
  position (advance_position (set_velocity (vopp (velocity c)) c))
  = position b.
Proof.
  intros c. unfold c, finish_velocity, advance_position.
  cbn [mass position velocity acceleration
       set_position set_velocity set_acceleration].
  generalize (dt : R) (lit_0_5 : R). intros t h. vring.
Qed.

(** X18.  The integrator is time-reversible: from a state with computed
    accelerations, a step, then every velocity turned round, then another
    step, gives the starting state with its velocities turned round. *)
Theorem velocityVerlet_reversible (bodies : list (Body R))
    (buf buf' : list (Vec3 R)) :
  let start := computeAccelerations bodies in
  snd (velocityVerlet buf' (reversed (snd (velocityVerlet buf start))))
  = reversed start.
Proof.
  intros start.
  assert (Hs : computeAccelerations start = start).
  { apply (computeAccelerations_settled bodies);
      [apply computeAccelerations_keeps_place|reflexivity]. }
  set (there := snd (velocityVerlet buf start)).
  assert (Hlen : length (reversed there) = length start).
  { unfold reversed, there. rewrite length_map. apply velocityVerlet_length. }
  assert (Hplace : Forall2 same_place start
                     (map advance_position (reversed there))).
  { apply Forall2_same_length_lookup_2; [rewrite length_map; lia|].
    intros k b m Hb Hm.
    destruct (velocityVerlet_lookup buf start k b Hb) as (a' & _ & Hc).
    fold there in Hc. apply reversed_lookup in Hc.
    change (map ?f ?l) with (f <$> l) in Hm.
    rewrite list_lookup_fmap, Hc in Hm. injection Hm as <-.
    split; [reflexivity|]. symmetry. apply (back_in_place b a'). }
  apply (list_eq_same_length _ _ (length start));
    [unfold reversed; rewrite length_map; reflexivity
    |rewrite velocityVerlet_length; exact Hlen|].
  intros k u v Hk Hu Hv.
  destruct (lookup_lt_is_Some_2 start k Hk) as [b Hb].
  rewrite (reversed_lookup start k b Hb) in Hv. injection Hv as <-.
  destruct (velocityVerlet_lookup buf start k b Hb) as (a' & _ & Hc).
  fold there in Hc. apply reversed_lookup in Hc.
  destruct (velocityVerlet_lookup buf' (reversed there) k _ Hc) as (a'' & Ha'' & Hu').
  rewrite Hu' in Hu. injection Hu as <-.
  destruct (computeAccelerations_same_place start _ k b _ Hplace Hb
              ltac:(change (map ?f ?l) with (f <$> l);
                    rewrite list_lookup_fmap, Hc; reflexivity))
    as (a & Ha & Ha2).
  rewrite Hs, Hb in Ha. rewrite Ha'' in Ha2.
  assert (Ha0 : a'' = acceleration b).
  { assert (Ha1 : acceleration b = a).
    { injection Ha as Hab. rewrite Hab at 1. reflexivity. }
    rewrite Ha1.
    assert (Hacc : forall u v : Body R, Some u = Some v -> acceleration u = acceleration v)
      by (intros u v [= ->]; reflexivity).
    apply (Hacc _ _ Ha2). }
  rewrite Ha0. clear.
  destruct b as [m p v a].
  unfold finish_velocity, advance_position,
    set_velocity, set_acceleration, set_position.
  cbn [mass position velocity acceleration].
  f_equal; apply vec3_eq; vsimpl; unfold dt;
    cbn [lit_0_5 lit_0_0005 R_double]; ring.
Qed.

(** X19.  A body alone moves uniformly: after [n] steps it is at
    [position + velocity * (n * dt)], at the velocity it had. *)
Theorem lone_body_uniform_motion (b : Body R) (n : nat) (buf : list (Vec3 R)) :
  snd (alone n (buf, computeAccelerations [b]))
  = [ set_acceleration vzero
        (set_position (position b ^+ velocity b ^* (INR n * dt)%D) b) ].
Proof.
  assert (Hone : forall c : Body R,
            computeAccelerations [c] = [set_acceleration vzero c])
    by reflexivity.
  induction n as [|n IH].
  - unfold alone. simpl Nat.iter. simpl snd. rewrite Hone.
    destruct b as [m p v a]. unfold set_acceleration, set_position.
    cbn [mass position velocity acceleration]. do 2 f_equal.
    apply vec3_eq; vsimpl; simpl INR; ring.
  - unfold alone in *. simpl Nat.iter. unfold call_velocityVerlet at 1.
    rewrite velocityVerlet_raw, IH. cbn [snd map]. rewrite Hone.
    rewrite S_INR. destruct b as [m p v a].
    unfold finish_velocity, advance_position, set_acceleration, set_position,
      set_velocity.
    cbn [zip_with mass position velocity acceleration].
    do 2 f_equal; apply vec3_eq; vsimpl; unfold dt;
      cbn [lit_0_5 lit_0_0005 R_double]; ring.
Qed.

End ExactMotion.

(** ** Worked instances of the further properties *)

Section MoreInstances.
Local Open Scope vec_scope.

Lemma computeAccelerations_reads_mass_position_witness :
  map acceleration (computeAccelerations Samples.sysA)
  = map acceleration
      (computeAccelerations (map (set_acceleration vzero) Samples.sysA)).
Proof.
  apply (computeAccelerations_reads_mass_position
           Samples.sysA (map (set_acceleration vzero) Samples.sysA));
    reflexivity.
Defined.

Lemma computeAccelerations_no_pair_witness :
  computeAccelerations Samples.massless
  = map (set_acceleration vzero) Samples.massless.
Proof.
  apply (computeAccelerations_no_pair Samples.massless). simpl. lia.
Defined.

Lemma run_until_closed_witness :
  run ([OtherEvent; Closed] :: [[]]) (true, ([], Samples.sysB))
  = (false, substeps ([], Samples.sysB))
  /\ run [[]] (false, ([], Samples.sysB)) = (false, ([], Samples.sysB)).
Proof.
  apply (run_until_closed [OtherEvent; Closed] [[]] (true, ([], Samples.sysB)));
    [reflexivity|right; left; reflexivity].
Defined.

Lemma frame_trails_bounded_witness :
  Forall (fun trail : list (Vec3 float) => length trail <= MAX_TRAIL)
    (snd (frame_trails (fun p => p) [OtherEvent]
            (true, ([], Samples.sysA), [[]; []]))).
Proof.
  apply (frame_trails_bounded (fun p : Vec3 float => p) [OtherEvent]
           (true, ([], Samples.sysA), [[]; []])).
  repeat constructor; simpl; lia.
Defined.

Lemma makePlanet_circular_witness :
  norm (position (makePlanet 3%R 1%R vzero)) = 1%R.
Proof.
  apply (makePlanet_circular 3%R 1%R vzero). lra.
Defined.

Lemma computeAccelerations_massless_witness :
  delete 1 (computeAccelerations [Samples.star; Samples.dust; Samples.planet])
  = computeAccelerations [Samples.star; Samples.planet].
Proof.
  apply (computeAccelerations_massless [Samples.star] [Samples.planet] Samples.dust).
  reflexivity.
Defined.

Lemma enforceBarycenter_relative_velocity_witness :
  exists bi' bj',
    enforceBarycenter Samples.two_bodies !! 0 = Some bi'
    /\ enforceBarycenter Samples.two_bodies !! 1 = Some bj'
    /\ velocity bi' ^- velocity bj'
       = velocity Samples.star ^- velocity Samples.planet.
Proof.
  apply (enforceBarycenter_relative_velocity Samples.two_bodies 0 1
           Samples.star Samples.planet);
    [unfold totalMass, totals; simpl; lra | reflexivity | reflexivity].
Defined.

Lemma barycenter_stationary_witness :
  weighted position (snd (alone 2 ([], init Samples.two_bodies)))
  = weighted position Samples.two_bodies.
Proof.
  apply (barycenter_stationary Samples.two_bodies 2 [] two_bodies_mass).
Defined.

Lemma angular_momentum_conserved_witness :
  angular_momentum (snd (alone 2 ([], computeAccelerations Samples.two_bodies)))
  = angular_momentum Samples.two_bodies
  /\ angular_momentum (snd (alone 2 ([], init Samples.two_bodies)))
     = angular_momentum (init Samples.two_bodies).
Proof.
  apply (angular_momentum_conserved Samples.two_bodies 2 [] two_bodies_mass).
Defined.

End MoreInstances.
